(** * Currency Whisper: the query extractor and the result formatter

    A shallow embedding of [extractCurrencyInfo] and [formatCurrencyResult]
    as they appear in [src/components/CurrencyConverter.tsx] and in its
    later revision with the structured form (which builds
    [CURRENCY_SYMBOLS] from [CURRENCY_LIST]).

    Strings are sequences of UTF-16 code units, as in JavaScript.  Regular
    expressions are run by a backtracking matcher written after the
    continuation-passing semantics of ECMA-262 (22.2.2), so that leftmost
    match, greedy quantifiers and capture groups behave as in the engine.
    Numbers are binary64 values, parsed and multiplied with correct
    rounding and printed from their shortest round-trip digits.  The alias
    and symbol tables are objects: a table keeps its own properties in
    creation order, and reading a property that is not its own falls
    through to [Object.prototype]. *)

From Stdlib Require Import List NArith ZArith Bool String Ascii Lia.
From Stdlib Require Import DecimalPos.
Import ListNotations.

Local Open Scope N_scope.

(** ** Strings *)

Definition code_unit := N.
Definition jsstring := list code_unit.

(** Reads the bytes of a Rocq string literal as UTF-8 and gives the UTF-16
    code units of the text, so that literals can be written as in the
    source. *)
Fixpoint utf8_units (bs : list N) : jsstring :=
  match bs with
  | [] => []
  | b :: rest =>
    if b <? 128 then b :: utf8_units rest
    else if b <? 224 then
      match rest with
      | c1 :: rest1 => ((b - 192) * 64 + (c1 - 128)) :: utf8_units rest1
      | [] => []
      end
    else if b <? 240 then
      match rest with
      | c1 :: c2 :: rest2 =>
        ((b - 224) * 4096 + (c1 - 128) * 64 + (c2 - 128)) :: utf8_units rest2
      | _ => []
      end
    else
      match rest with
      | c1 :: c2 :: c3 :: rest3 =>
        let cp := (b - 240) * 262144 + (c1 - 128) * 4096
                  + (c2 - 128) * 64 + (c3 - 128) in
        let v := cp - 65536 in
        (55296 + v / 1024) :: (56320 + v mod 1024) :: utf8_units rest3
      | _ => []
      end
  end.

Definition js (s : string) : jsstring :=
  utf8_units (map N_of_ascii (list_ascii_of_string s)).
Arguments js : simpl never.

Fixpoint jseqb (s t : jsstring) : bool :=
  match s, t with
  | [], [] => true
  | a :: s', b :: t' => (a =? b) && jseqb s' t'
  | _, _ => false
  end.

Fixpoint startsWith (s key : jsstring) : bool :=
  match key, s with
  | [], _ => true
  | k :: key', c :: s' => (k =? c) && startsWith s' key'
  | _ :: _, [] => false
  end.

(** [String.prototype.includes]: [key] occurs in [s] as a run of code
    units. *)
Fixpoint includes (s key : jsstring) : bool :=
  startsWith s key ||
  match s with
  | [] => false
  | _ :: s' => includes s' key
  end.

(** [s.slice(i, j)] for [i <= j]. *)
Definition slice (s : jsstring) (i j : nat) : jsstring :=
  firstn (j - i) (skipn i s).

Definition inRange (lo hi c : code_unit) : bool := (lo <=? c) && (c <=? hi).

Definition isDigit (c : code_unit) : bool := inRange 48 57 c.
Definition isUpper (c : code_unit) : bool := inRange 65 90 c.
Definition isLower (c : code_unit) : bool := inRange 97 122 c.
Definition isAsciiLetter (c : code_unit) : bool := isUpper c || isLower c.

(** [\w] without the [u] flag: ASCII letters, digits and underscore. *)
Definition isWordChar (c : code_unit) : bool :=
  isAsciiLetter c || isDigit c || (c =? 95).

(** [\s]: WhiteSpace and LineTerminator of ECMA-262. *)
Definition isSpace (c : code_unit) : bool :=
  inRange 9 13 c || (c =? 32) || (c =? 160) || (c =? 5760)
  || inRange 8192 8202 c || (c =? 8232) || (c =? 8233) || (c =? 8239)
  || (c =? 8287) || (c =? 12288) || (c =? 65279).

(** Lowercasing of one code unit, for the Latin letters of ASCII.  The
    case table of the rest of Unicode is not reproduced: [toLowerCase]
    below is exact on ASCII text, which is what the example queries and
    every captured [\w+] token are.  The statements about every query are
    made for an arbitrary lowercasing function instead (the variable
    [lower] of [extractCurrencyInfo]). *)
Definition lowerUnit (c : code_unit) : code_unit :=
  if isUpper c then c + 32 else c.

Definition toLowerCase (s : jsstring) : jsstring := map lowerUnit s.

(** ** Regular expressions *)

Inductive regex : Type :=
| Eps                                            (* empty pattern *)
| Chr (p : code_unit -> bool)                    (* one code unit in a set *)
| Cat (r s : regex)                              (* r s *)
| Alt (r s : regex)                              (* r | s *)
| Rep (min : nat) (max : option nat) (r : regex) (* greedy r{min,max} *)
| Grp (k : nat) (r : regex)                      (* k-th capturing group *)
| Bnd.                                           (* \b *)

Definition Star (r : regex) : regex := Rep 0 None r.
Definition Plus (r : regex) : regex := Rep 1 None r.
Definition Opt (r : regex) : regex := Rep 0 (Some 1%nat) r.

(** A literal letter under the [i] flag (no [u] flag): Canonicalize maps a
    code unit to its upper case unless that would turn a non-ASCII unit
    into an ASCII one, so a lowercase ASCII letter matches itself and its
    capital only. *)
Definition Lit (c : code_unit) : regex :=
  Chr (fun x => (x =? c) || (isLower c && (x =? c - 32)) ||
                (isUpper c && (x =? c + 32))).

Fixpoint Word (s : jsstring) : regex :=
  match s with
  | [] => Eps
  | [c] => Lit c
  | c :: s' => Cat (Lit c) (Word s')
  end.

(** Matcher state: the end index reached and the capture table (group
    number, start and end of the captured slice), latest binding first. *)
Record mstate : Type := MState {
  endIndex : nat;
  captures : list (nat * (nat * nat))
}.

Definition cont := mstate -> option mstate.

Fixpoint groupsOf (r : regex) : list nat :=
  match r with
  | Eps | Chr _ | Bnd => []
  | Cat r s | Alt r s => groupsOf r ++ groupsOf s
  | Rep _ _ r => groupsOf r
  | Grp k r => k :: groupsOf r
  end.

Definition memNat (k : nat) (l : list nat) : bool := existsb (Nat.eqb k) l.

Definition clearGroups (gs : list nat) (x : mstate) : mstate :=
  MState (endIndex x)
         (filter (fun b => negb (memNat (fst b) gs)) (captures x)).

Fixpoint captureOf (k : nat) (caps : list (nat * (nat * nat)))
  : option (nat * nat) :=
  match caps with
  | [] => None
  | (k', se) :: rest => if Nat.eqb k k' then Some se else captureOf k rest
  end.

Section Matcher.

Variable input : jsstring.

Definition wordAt (i : nat) : bool :=
  match nth_error input i with
  | Some c => isWordChar c
  | None => false
  end.

(** IsWordChar(e - 1) differs from IsWordChar(e). *)
Definition atBoundary (e : nat) : bool :=
  let a := match e with O => false | S e' => wordAt e' end in
  negb (Bool.eqb a (wordAt e)).

(** RepeatMatcher of ECMA-262 for a greedy quantifier.  [fuel] bounds the
    number of iterations; it is started at [min] plus the number of code
    units left, which is enough because an iteration past [min] that
    consumes nothing is rejected. *)
Fixpoint repeatMatcher (m : mstate -> cont -> option mstate)
         (gs : list nat) (fuel min : nat) (max : option nat)
         (x : mstate) (c : cont) : option mstate :=
  match max with
  | Some O => c x
  | _ =>
    match fuel with
    | O => match min with O => c x | S _ => None end
    | S fuel' =>
      let d := fun y : mstate =>
        if Nat.eqb min 0 && Nat.eqb (endIndex y) (endIndex x) then None
        else repeatMatcher m gs fuel' (Nat.pred min)
                           (option_map Nat.pred max) y c in
      let xr := clearGroups gs x in
      match min with
      | S _ => m xr d
      | O => match m xr d with
             | Some z => Some z
             | None => c x
             end
      end
    end
  end.

Fixpoint matcher (r : regex) (x : mstate) (c : cont) : option mstate :=
  match r with
  | Eps => c x
  | Chr p =>
    match nth_error input (endIndex x) with
    | Some ch => if p ch then c (MState (S (endIndex x)) (captures x))
                 else None
    | None => None
    end
  | Cat r1 r2 => matcher r1 x (fun y => matcher r2 y c)
  | Alt r1 r2 =>
    match matcher r1 x c with
    | Some z => Some z
    | None => matcher r2 x c
    end
  | Rep min max r1 =>
    repeatMatcher (matcher r1) (groupsOf r1)
                  (min + (List.length input - endIndex x)) min max x c
  | Grp k r1 =>
    matcher r1 x (fun y =>
      c (MState (endIndex y)
                ((k, (endIndex x, endIndex y)) :: captures y)))
  | Bnd => if atBoundary (endIndex x) then c x else None
  end.

(** RegExpBuiltinExec for a regex without [g] and [y]: the first start
    index, from 0 up to the length of the input, at which the pattern
    matches. *)
Fixpoint searchFrom (r : regex) (fuel i : nat) : option (nat * mstate) :=
  match matcher r (MState i []) (fun y => Some y) with
  | Some y => Some (i, y)
  | None =>
    match fuel with
    | O => None
    | S fuel' => searchFrom r fuel' (S i)
    end
  end.

End Matcher.

(** The array returned by [String.prototype.match]: the index of the match,
    the matched text ([match[0]]) and the captures. *)
Record matchResult : Type := MatchResult {
  index : nat;
  matched : jsstring;
  groups : list (nat * jsstring)
}.

Definition regexMatch (s : jsstring) (r : regex) : option matchResult :=
  match searchFrom s r (List.length s) 0 with
  | None => None
  | Some (i, y) =>
    Some (MatchResult i (slice s i (endIndex y))
            (map (fun b => (fst b, slice s (fst (snd b)) (snd (snd b))))
                 (captures y)))
  end.

(** [match[k]] for [k >= 1]; [None] is [undefined]. *)
Fixpoint group (k : nat) (gs : list (nat * jsstring)) : option jsstring :=
  match gs with
  | [] => None
  | (k', s) :: rest => if Nat.eqb k k' then Some s else group k rest
  end.

(** Groups that sit under a quantifier, whose captures an iteration
    clears. *)
Fixpoint repGroups (r : regex) : list nat :=
  match r with
  | Eps | Chr _ | Bnd => []
  | Cat r1 r2 | Alt r1 r2 => repGroups r1 ++ repGroups r2
  | Rep _ _ r1 => groupsOf r1
  | Grp _ r1 => repGroups r1
  end.

(** Group [k] takes part in every match of [r]. *)
Fixpoint sure (k : nat) (r : regex) : bool :=
  match r with
  | Eps | Chr _ | Bnd | Rep _ _ _ => false
  | Cat r1 r2 => (sure k r1 && negb (memNat k (repGroups r2))) || sure k r2
  | Alt r1 r2 => sure k r1 && sure k r2
  | Grp j r1 => Nat.eqb k j || sure k r1
  end.

Definition has (k : nat) (x : mstate) : bool :=
  match captureOf k (captures x) with
  | Some _ => true
  | None => false
  end.

Definition d_ : regex := Chr isDigit.
Definition w_ : regex := Chr isWordChar.
Definition s_ : regex := Chr isSpace.
Definition notLetter : regex := Chr (fun c => negb (isAsciiLetter c)).

Fixpoint cats (rs : list regex) : regex :=
  match rs with
  | [] => Eps
  | [r] => r
  | r :: rs' => Cat r (cats rs')
  end.

(** [/\b(\d{1,3}(,\d{3})*(\.\d+)?|\d+(\.\d+)?)\b/] *)
Definition amountRegex : regex :=
  cats [ Bnd;
         Grp 1 (Alt (cats [ Rep 1 (Some 3%nat) d_;
                            Star (Grp 2 (Cat (Lit 44) (Rep 3 (Some 3%nat) d_)));
                            Opt (Grp 3 (Cat (Lit 46) (Plus d_))) ])
                    (cats [ Plus d_;
                            Opt (Grp 4 (Cat (Lit 46) (Plus d_))) ]));
         Bnd ].

(** The five patterns, in the order of the source:
    [/from\s+(\w+)\s+to\s+(\w+)/i], [/(\w+)\s+to\s+(\w+)/i],
    [/convert\s+[^a-zA-Z]+\s+(\w+)\s+to\s+(\w+)/i],
    [/exchange\s+[^a-zA-Z]+\s+(\w+)\s+to\s+(\w+)/i],
    [/(\w+)\s+in\s+(\w+)/i]. *)
Definition xToY (sep : string) : list regex :=
  [ Grp 1 (Plus w_); Plus s_; Word (js sep); Plus s_; Grp 2 (Plus w_) ].

Definition conversionPatterns : list regex :=
  [ cats (Word (js "from") :: Plus s_ :: xToY "to");
    cats (xToY "to");
    cats (Word (js "convert") :: Plus s_ :: Plus notLetter :: Plus s_
            :: xToY "to");
    cats (Word (js "exchange") :: Plus s_ :: Plus notLetter :: Plus s_
            :: xToY "to");
    cats (xToY "in") ].

(** What a matcher guarantees about the state it hands on: the captures
    of [x] outside [gone] survive, and those in [made] are set. *)
Definition hands (m : mstate -> cont -> option mstate)
           (made gone : nat -> bool) : Prop :=
  forall x c z, m x c = Some z ->
    exists y, c y = Some z /\
      forall k, made k = true \/ (has k x = true /\ gone k = false) ->
                has k y = true.

(** A matcher on [input] is local when it consults its continuation only
    at states between the one it starts from and the end of the input,
    and strict when it fails as soon as its continuation always fails. *)
Definition local (input : jsstring) (m : mstate -> cont -> option mstate)
  : Prop :=
  forall x c c',
    (forall y, (endIndex x <= endIndex y)%nat ->
               (endIndex y <= Nat.max (endIndex x) (List.length input))%nat ->
               c y = c' y) ->
    m x c = m x c'.

Definition strict (m : mstate -> cont -> option mstate) : Prop :=
  forall x, m x (fun _ => None) = None.

(** Both capture groups take part in every match of the pattern. *)
Definition capturesBoth (p : regex) : Prop :=
  sure 1 p = true /\ sure 2 p = true.

(** The two captures of a pattern on a query, when it matches. *)
Definition captured (q : jsstring) (p : regex)
  : option (option jsstring * option jsstring) :=
  match regexMatch q p with
  | Some m => Some (group 1 (groups m), group 2 (groups m))
  | None => None
  end.

(** ** Numbers

    A Number is a binary64 value: NaN, an infinity, or [m * 2^e] with a
    sign.  [finite] keeps the mantissa odd so that equal values have equal
    representations. *)

Inductive number : Type :=
| NaN
| Infinity (negative : bool)
| Finite (negative : bool) (m : N) (e : Z).

Fixpoint oddPart (p : positive) : positive * Z :=
  match p with
  | xO p' => let (q, k) := oddPart p' in (q, (k + 1)%Z)
  | _ => (p, 0%Z)
  end.

Definition finite (negative : bool) (m : N) (e : Z) : number :=
  match m with
  | N0 => Finite negative 0 0
  | Npos p => let (q, k) := oddPart p in Finite negative (Npos q) (e + k)
  end.

(** The binary64 value nearest to [a / b] (ties to even), with gradual
    underflow below [2^-1022] and overflow to an infinity from
    [2^1024 - 2^970] on. *)
Definition roundRatio (negative : bool) (a b : N) : number :=
  if a =? 0 then Finite negative 0 0
  else
    let e0 := (Z.of_N (N.log2 a) - Z.of_N (N.log2 b) - 53)%Z in
    let num := fun e : Z => if (e <? 0)%Z then a * 2 ^ Z.to_N (- e) else a in
    let den := fun e : Z => if (e <? 0)%Z then b else b * 2 ^ Z.to_N e in
    let e1 := if num e0 / den e0 <? 2 ^ 53 then e0 else (e0 + 1)%Z in
    let e := Z.max e1 (-1074) in
    let q := num e / den e in
    let r := num e mod den e in
    let q' := if (den e <? 2 * r) || ((den e =? 2 * r) && N.odd q)
              then q + 1 else q in
    if (971 <? e)%Z || ((e =? 971)%Z && (q' =? 2 ^ 53))
    then Infinity negative
    else finite negative q' e.

(** The Number denoted by the decimal [c * 10^x]. *)
Definition ofDecimal (negative : bool) (c : N) (x : Z) : number :=
  if (x <? 0)%Z then roundRatio negative c (10 ^ Z.to_N (- x))
  else roundRatio negative (c * 10 ^ Z.to_N x) 1.

Definition ofInt (z : Z) : number := ofDecimal (z <? 0)%Z (Z.abs_N z) 0.

(** [x * y] on Numbers: the exact product, rounded. *)
Definition mul (x y : number) : number :=
  match x, y with
  | NaN, _ | _, NaN => NaN
  | Infinity a, Infinity b => Infinity (xorb a b)
  | Infinity a, Finite b m _ | Finite b m _, Infinity a =>
    if m =? 0 then NaN else Infinity (xorb a b)
  | Finite a m e, Finite b m' e' =>
    let s := (e + e')%Z in
    if (s <? 0)%Z then roundRatio (xorb a b) (m * m') (2 ^ Z.to_N (- s))
    else roundRatio (xorb a b) (m * m' * 2 ^ Z.to_N s) 1
  end.

Definition isFinite (x : number) : bool :=
  match x with
  | Finite _ _ _ => true
  | _ => false
  end.

Definition numberEqb (x y : number) : bool :=
  match x, y with
  | NaN, NaN => true
  | Infinity a, Infinity b => Bool.eqb a b
  | Finite a m e, Finite b m' e' => Bool.eqb a b && (m =? m') && (e =? e')%Z
  | _, _ => false
  end.

Fixpoint uintUnits (d : Decimal.uint) : jsstring :=
  match d with
  | Decimal.Nil => []
  | Decimal.D0 d' => 48 :: uintUnits d'
  | Decimal.D1 d' => 49 :: uintUnits d'
  | Decimal.D2 d' => 50 :: uintUnits d'
  | Decimal.D3 d' => 51 :: uintUnits d'
  | Decimal.D4 d' => 52 :: uintUnits d'
  | Decimal.D5 d' => 53 :: uintUnits d'
  | Decimal.D6 d' => 54 :: uintUnits d'
  | Decimal.D7 d' => 55 :: uintUnits d'
  | Decimal.D8 d' => 56 :: uintUnits d'
  | Decimal.D9 d' => 57 :: uintUnits d'
  end.

(** The decimal digits of a natural number, most significant first. *)
Definition digitsOf (n : N) : jsstring := uintUnits (N.to_uint n).

(** The value of a digit string, most significant digit first. *)
Definition digitsValue (ds : jsstring) : N :=
  fold_left (fun acc c => 10 * acc + (c - 48)) ds 0.

(** The exact decimal expansion [c * 10^x] of [m * 2^e]. *)
Definition exactDecimal (m : N) (e : Z) : N * Z :=
  if (e <? 0)%Z then (m * 5 ^ Z.to_N (- e), e)
  else (m * 2 ^ Z.to_N e, 0%Z).

(** The digits of Number::toString: the fewest significant digits [k] such
    that some [s * 10^x] with [k] digits denotes the Number, the closest
    such [s] (the even one on a tie).  [C * 10^E] is the exact expansion,
    with [D] digits. *)
Fixpoint shortestFrom (fuel : nat) (k : N) (C : N) (E : Z) (D : N)
         (target : number) : N * Z :=
  match fuel with
  | O => (C, E)
  | S fuel' =>
    if D <=? k then (C, E)
    else
      let p := 10 ^ (D - k) in
      let lo := C / p in
      let r := C mod p in
      let x := (E + Z.of_N (D - k))%Z in
      let okLo := numberEqb (ofDecimal false lo x) target in
      let okHi := numberEqb (ofDecimal false (lo + 1) x) target in
      if okLo && okHi then
        if (2 * r <? p) || ((2 * r =? p) && N.even lo) then (lo, x)
        else (lo + 1, x)
      else if okLo then (lo, x)
      else if okHi then (lo + 1, x)
      else shortestFrom fuel' (k + 1) C E D target
  end.

Fixpoint stripZeros (fuel : nat) (c : N) (x : Z) : N * Z :=
  match fuel with
  | O => (c, x)
  | S fuel' =>
    if (c =? 0) then (0, 0%Z)
    else if c mod 10 =? 0 then stripZeros fuel' (c / 10) (x + 1)
    else (c, x)
  end.

Definition shortestDecimal (m : N) (e : Z) : N * Z :=
  let (C, E) := exactDecimal m e in
  let D := N.of_nat (List.length (digitsOf C)) in
  let (c, x) := shortestFrom 17 1 C E D (finite false m e) in
  stripZeros (List.length (digitsOf c)) c x.

(** [parseFloat] on the text the extractor hands it: a run of decimal
    digits with an optional fraction, read up to the first code unit that
    cannot continue it; [NaN] when the text does not start with a digit or
    with a point followed by a digit.  (Signs, exponents and the word
    Infinity are not read here; the amount pattern cannot produce them.) *)
Fixpoint takeDigits (s : jsstring) : jsstring * jsstring :=
  match s with
  | c :: s' =>
    if isDigit c then let (ds, rest) := takeDigits s' in (c :: ds, rest)
    else ([], s)
  | [] => ([], [])
  end.

Definition parseFloat (s : jsstring) : number :=
  let (ip, rest) := takeDigits s in
  let fp := match rest with
            | 46 :: rest' => fst (takeDigits rest')
            | _ => []
            end in
  match ip, fp with
  | [], [] => NaN
  | _, _ => ofDecimal false (digitsValue (ip ++ fp))
                      (- Z.of_nat (List.length fp))
  end.

(** ** Intl.NumberFormat('en-US')

    The formatter reads a Number through its shortest round-trip digits and
    rounds those half away from zero at the last fraction digit kept (the
    default rounding mode, halfExpand), as the ICU-based engines do: 1.005
    at two fraction digits prints as 1.01. *)

(** [c * 10^x * 10^F], rounded half away from zero. *)
Definition roundHalfExpand (c : N) (x : Z) (F : N) : N :=
  let s := (x + Z.of_N F)%Z in
  if (0 <=? s)%Z then c * 10 ^ Z.to_N s
  else
    let p := 10 ^ Z.to_N (- s) in
    if p <=? 2 * (c mod p) then c / p + 1 else c / p.

(** The [F] digits of [n mod 10^F], most significant first. *)
Definition fractionDigits (n : N) (F : nat) : jsstring :=
  map (fun i => 48 + (n / 10 ^ N.of_nat (F - i)) mod 10) (seq 1 F).

(** Drops trailing zeros of a reversed digit list while more than [keep]
    digits remain. *)
Fixpoint trimZerosRev (keep : nat) (rev_ds : jsstring) : jsstring :=
  match rev_ds with
  | c :: rest =>
    if (c =? 48) && Nat.ltb keep (List.length rev_ds)
    then trimZerosRev keep rest
    else rev_ds
  | [] => []
  end.

(** Thousands grouping of a reversed digit list; [i] digits of the
    current group are already out. *)
Fixpoint groupRev (i : nat) (rev_ds : jsstring) : jsstring :=
  match rev_ds with
  | [] => []
  | d :: rest =>
    if Nat.eqb i 3 then 44 :: d :: groupRev 1 rest
    else d :: groupRev (S i) rest
  end.

Definition grouped (n : N) : jsstring :=
  rev (groupRev 0 (rev (digitsOf n))).

Definition minus (negative : bool) : jsstring :=
  if negative then [45] else [].

Definition formatNumber (minFraction maxFraction : nat) (x : number)
  : jsstring :=
  match x with
  | NaN => js "NaN"
  | Infinity negative => minus negative ++ [8734]
  | Finite negative m e =>
    let (c, x10) := shortestDecimal m e in
    let n := roundHalfExpand c x10 (N.of_nat maxFraction) in
    let frac := rev (trimZerosRev minFraction
                       (rev (fractionDigits n maxFraction))) in
    minus negative ++ grouped (n / 10 ^ N.of_nat maxFraction)
      ++ match frac with
         | [] => []
         | _ :: _ => 46 :: frac
         end
  end.

(** [new Intl.NumberFormat('en-US').format(x)]: at most three fraction
    digits. *)
Definition formatDefault (x : number) : jsstring := formatNumber 0 3 x.

(** [new Intl.NumberFormat('en-US', { minimumFractionDigits: 2,
    maximumFractionDigits: 2 }).format(x)]. *)
Definition formatFixed2 (x : number) : jsstring := formatNumber 2 2 x.

(** ** Objects used as lookup tables

    [currencyCodes] and the symbol tables are plain objects with string
    values.  A table is the list of its own properties in the order
    [Object.entries] yields them (creation order: no key of the tables is
    an array index).  Reading [table[key]] also consults
    [Object.prototype], whose members are functions, and the prototype
    object itself under [__proto__]. *)

Inductive value : Type :=
| Str (s : jsstring)
| Builtin (name : jsstring)      (* a built-in function, by its name *)
| ObjectPrototype.               (* the object [Object.prototype] *)

Definition table := list (jsstring * jsstring).

(** A property definition of an object literal (or of
    [Object.fromEntries]): a key already present keeps its position and
    takes the new value. *)
Fixpoint defineProp (k v : jsstring) (o : table) : table :=
  match o with
  | [] => [(k, v)]
  | (k', v') :: o' =>
    if jseqb k k' then (k, v) :: o' else (k', v') :: defineProp k v o'
  end.

Definition objectLiteral (props : list (string * string)) : table :=
  fold_left (fun o kv => defineProp (js (fst kv)) (js (snd kv)) o) props [].

Fixpoint ownProp (o : table) (k : jsstring) : option jsstring :=
  match o with
  | [] => None
  | (k', v) :: o' => if jseqb k k' then Some v else ownProp o' k
  end.

Definition objectPrototypeMethods : list jsstring :=
  map js [ "hasOwnProperty"; "isPrototypeOf"; "propertyIsEnumerable";
           "toLocaleString"; "toString"; "valueOf";
           "__defineGetter__"; "__defineSetter__";
           "__lookupGetter__"; "__lookupSetter__" ]%string.

Definition inherited (k : jsstring) : option value :=
  if jseqb k (js "constructor") then Some (Builtin (js "Object"))
  else if jseqb k (js "__proto__") then Some ObjectPrototype
  else if existsb (jseqb k) objectPrototypeMethods then Some (Builtin k)
  else None.

(** [o[k]]; [None] is [undefined]. *)
Definition getProp (o : table) (k : jsstring) : option value :=
  match ownProp o k with
  | Some v => Some (Str v)
  | None => inherited k
  end.

Definition truthy (v : value) : bool :=
  match v with
  | Str [] => false
  | _ => true
  end.

(** [a === b] *)
Definition strictEq (a b : value) : bool :=
  match a, b with
  | Str s, Str t => jseqb s t
  | Builtin f, Builtin g => jseqb f g
  | ObjectPrototype, ObjectPrototype => true
  | _, _ => false
  end.

(** A [let x: string | null] slot; [None] is [null]. *)
Definition slot := option value.

(** [!x] *)
Definition unset (x : slot) : bool :=
  match x with
  | Some v => negb (truthy v)
  | None => true
  end.

(** ** The query extractor *)

Inductive extraction : Type :=
| Success (amount : number) (fromCurrency toCurrency : value)
| Failure (error : jsstring)
| TypeError.    (* an exception in place of a result *)

Inductive outcome (A : Type) : Type :=
| Ok (a : A)
| Threw.
Arguments Ok {A} a.
Arguments Threw {A}.

Section Extractor.

(** [String.prototype.toLowerCase] *)
Variable lower : jsstring -> jsstring.
Variable currencyCodes : table.

(** [if (currencyCodes[token]) x = currencyCodes[token];] *)
Definition assignIfKnown (token : jsstring) (x : slot) : slot :=
  match getProp currencyCodes token with
  | Some v => if truthy v then Some v else x
  | None => x
  end.

(** The body of the pattern loop for a pattern that matched.  Reading
    [.toLowerCase()] of a capture that is [undefined] throws. *)
Definition onMatch (m : matchResult) (st : slot * slot)
  : outcome (slot * slot) :=
  match group 1 (groups m), group 2 (groups m) with
  | Some g1, Some g2 =>
    let source := lower g1 in
    let target := lower g2 in
    Ok (assignIfKnown source (fst st), assignIfKnown target (snd st))
  | _, _ => Threw
  end.

(** [for (const pattern of patterns) { ... if (from && to) break; }] *)
Fixpoint patternLoop (normalizedQuery : jsstring) (patterns : list regex)
         (st : slot * slot) : outcome (slot * slot) :=
  match patterns with
  | [] => Ok st
  | pattern :: rest =>
    match regexMatch normalizedQuery pattern with
    | None => patternLoop normalizedQuery rest st
    | Some m =>
      match onMatch m st with
      | Threw => Threw
      | Ok st' =>
        if negb (unset (fst st')) && negb (unset (snd st')) then Ok st'
        else patternLoop normalizedQuery rest st'
      end
    end
  end.

(** [for (const [key, code] of Object.entries(currencyCodes)) ...] *)
Fixpoint scanLoop (normalizedQuery : jsstring) (entries : table)
         (st : slot * slot) : slot * slot :=
  match entries with
  | [] => st
  | (key, code) :: rest =>
    if includes normalizedQuery key then
      if unset (fst st) then
        scanLoop normalizedQuery rest (Some (Str code), snd st)
      else if unset (snd st)
              && negb (match fst st with
                       | Some f => strictEq (Str code) f
                       | None => false
                       end)
      then (fst st, Some (Str code))
      else scanLoop normalizedQuery rest st
    else scanLoop normalizedQuery rest st
  end.

Definition scanPhase (normalizedQuery : jsstring) (st : slot * slot)
  : slot * slot :=
  if unset (fst st) || unset (snd st)
  then scanLoop normalizedQuery currencyCodes st
  else st.

(** [s.replace(/,/g, '')]: every comma removed. *)
Definition removeCommas (s : jsstring) : jsstring :=
  filter (fun c => negb (c =? 44)) s.

Definition finish (amount : number) (st : slot * slot) : extraction :=
  match st with
  | (Some f, Some t) =>
    if negb (truthy f) || negb (truthy t)
    then Failure (js "Please specify both the source and target currencies more clearly.")
    else Success amount f t
  | _ => Failure (js "Please specify both the source and target currencies more clearly.")
  end.

Definition extractCurrencyInfo (query : jsstring) : extraction :=
  let normalizedQuery := lower query in
  match regexMatch normalizedQuery amountRegex with
  | None => Failure
      (js "Couldn't identify an amount in your query. Please specify an amount to convert.")
  | Some amountMatch =>
    let amount := parseFloat (removeCommas (matched amountMatch)) in
    match patternLoop normalizedQuery conversionPatterns (None, None) with
    | Threw => TypeError
    | Ok st => finish amount (scanPhase normalizedQuery st)
    end
  end.

End Extractor.

(** ** The result formatter *)

Section Formatter.

(** The source text [String(f)] gives for a built-in function, which the
    engine chooses. *)
Variable functionText : jsstring -> jsstring.

(** ToString, as applied by a template literal and by a computed
    property key. *)
Definition toText (v : value) : jsstring :=
  match v with
  | Str s => s
  | Builtin f => functionText f
  | ObjectPrototype => js "[object Object]"
  end.

(** [symbols[code]] when it is truthy; [None] when the [|| ''] fallback
    is taken. *)
Definition symbolOf (symbols : table) (code : value) : option value :=
  match getProp symbols (toText code) with
  | Some v => if truthy v then Some v else None
  | None => None
  end.

Definition orEmpty (o : option value) : value :=
  match o with
  | Some v => v
  | None => Str []
  end.

Definition formatCurrencyResult (symbols : table) (amount : number)
           (fromCurrency toCurrency : value) (result : number) : jsstring :=
  let formattedAmount := formatDefault amount in
  let formattedResult := formatFixed2 result in
  let fromSymbol := orEmpty (symbolOf symbols fromCurrency) in
  let toSymbol := orEmpty (symbolOf symbols toCurrency) in
  toText fromSymbol ++ formattedAmount ++ js " " ++ toText fromCurrency
    ++ js " is approximately " ++ toText toSymbol ++ formattedResult
    ++ js " " ++ toText toCurrency
    ++ js " at the current exchange rate.".

End Formatter.

(** ** The two revisions of the component *)

(** [src/components/CurrencyConverter.tsx]: the yen sign is written twice
    in the alias literal, so it keeps its first position and maps to CNY;
    the symbol table is local to the formatter. *)
Module Converter.

Definition currencyCodes : table := objectLiteral [
  ("usd", "USD"); ("dollar", "USD"); ("dollars", "USD"); ("$", "USD");
  ("eur", "EUR"); ("euro", "EUR"); ("euros", "EUR"); ("€", "EUR");
  ("gbp", "GBP"); ("pound", "GBP"); ("pounds", "GBP"); ("£", "GBP");
  ("jpy", "JPY"); ("yen", "JPY"); ("¥", "JPY");
  ("inr", "INR"); ("rupee", "INR"); ("rupees", "INR"); ("rs", "INR");
  ("₹", "INR");
  ("cad", "CAD"); ("canadian dollar", "CAD"); ("c$", "CAD");
  ("aud", "AUD"); ("australian dollar", "AUD"); ("a$", "AUD");
  ("chf", "CHF"); ("franc", "CHF"); ("francs", "CHF");
  ("cny", "CNY"); ("yuan", "CNY"); ("rmb", "CNY"); ("¥", "CNY")
]%string.

Definition currencySymbols : table := objectLiteral [
  ("USD", "$"); ("EUR", "€"); ("GBP", "£"); ("JPY", "¥"); ("INR", "₹");
  ("CAD", "C$"); ("AUD", "A$"); ("CHF", "CHF"); ("CNY", "¥")
]%string.

Definition extract (query : jsstring) : extraction :=
  extractCurrencyInfo toLowerCase currencyCodes query.

Definition format (functionText : jsstring -> jsstring) :=
  formatCurrencyResult functionText currencySymbols.

End Converter.

(** The later revision of the component, which adds the structured form:
    the yen aliases carry their code, and the symbol table is the
    module-level [CURRENCY_SYMBOLS] built from [CURRENCY_LIST]. *)
Module ConverterForm.

Record currency : Type := Currency {
  code : string;
  name : string;
  symbol : string
}.

Definition CURRENCY_LIST : list currency := [
  Currency "USD" "US Dollar" "$";
  Currency "EUR" "Euro" "€";
  Currency "GBP" "British Pound" "£";
  Currency "JPY" "Japanese Yen" "¥";
  Currency "INR" "Indian Rupee" "₹";
  Currency "CAD" "Canadian Dollar" "C$";
  Currency "AUD" "Australian Dollar" "A$";
  Currency "CHF" "Swiss Franc" "CHF";
  Currency "CNY" "Chinese Yuan" "¥";
  Currency "RUB" "Russian Ruble" "₽";
  Currency "MXN" "Mexican Peso" "$";
  Currency "BRL" "Brazilian Real" "R$"
]%string.

(** [Object.fromEntries(CURRENCY_LIST.map(c => [c.code, c.symbol]))] *)
Definition CURRENCY_SYMBOLS : table :=
  objectLiteral (map (fun c => (code c, symbol c)) CURRENCY_LIST).

Definition currencyCodes : table := objectLiteral [
  ("usd", "USD"); ("dollar", "USD"); ("dollars", "USD"); ("$", "USD");
  ("eur", "EUR"); ("euro", "EUR"); ("euros", "EUR"); ("€", "EUR");
  ("gbp", "GBP"); ("pound", "GBP"); ("pounds", "GBP"); ("£", "GBP");
  ("jpy", "JPY"); ("yen", "JPY"); ("¥jpy", "JPY");
  ("inr", "INR"); ("rupee", "INR"); ("rupees", "INR"); ("rs", "INR");
  ("₹", "INR");
  ("cad", "CAD"); ("canadian dollar", "CAD"); ("c$", "CAD");
  ("aud", "AUD"); ("australian dollar", "AUD"); ("a$", "AUD");
  ("chf", "CHF"); ("franc", "CHF"); ("francs", "CHF");
  ("cny", "CNY"); ("yuan", "CNY"); ("rmb", "CNY"); ("¥cny", "CNY")
]%string.

Definition extract (query : jsstring) : extraction :=
  extractCurrencyInfo toLowerCase currencyCodes query.

Definition format (functionText : jsstring -> jsstring) :=
  formatCurrencyResult functionText CURRENCY_SYMBOLS.

End ConverterForm.

(** ** The functions as they run on the heap

    What one call could share with another is kept in a heap: the objects
    the functions create (the alias and symbol tables, the regular
    expressions with their [lastIndex], the number formatters), the [let]
    bindings of an activation, and the module-level [CURRENCY_SYMBOLS]
    object of the later revision.  The two functions are written here
    statement by statement as computations on that heap, so that what a
    call does to the cells it finds is a property to be proved of them.
    Strings, numbers, match results and the array of [Object.entries] are
    immutable or used once, and stay values. *)

Inductive cell : Type :=
| ObjectCell (props : table)
| RegExpCell (source : regex) (global : bool) (lastIndex : nat)
| NumberFormatCell (minimumFractionDigits maximumFractionDigits : nat)
| BindingCell (v : slot).

(** Addresses are positions; a new cell goes to the end. *)
Definition heap := list cell.

(** A computation on the heap, which returns or throws. *)
Definition M (A : Type) : Type := heap -> outcome A * heap.

Definition ret {A : Type} (a : A) : M A := fun h => (Ok a, h).

Definition throw {A : Type} : M A := fun h => (Threw, h).

Definition bind {A B : Type} (m : M A) (k : A -> M B) : M B :=
  fun h =>
    match m h with
    | (Ok a, h') => k a h'
    | (Threw, h') => (Threw, h')
    end.

Notation "x <- m ;; k" := (bind m (fun x => k))
  (at level 61, m at next level, right associativity).

Definition alloc (c : cell) : M nat :=
  fun h => (Ok (List.length h), h ++ [c]).

Definition read (a : nat) : M cell :=
  fun h =>
    match nth_error h a with
    | Some c => (Ok c, h)
    | None => (Threw, h)
    end.

Fixpoint update (a : nat) (c : cell) (h : heap) : heap :=
  match h with
  | [] => []
  | x :: h' =>
    match a with
    | O => c :: h'
    | S a' => x :: update a' c h'
    end
  end.

Definition write (a : nat) (c : cell) : M unit :=
  fun h => (Ok tt, update a c h).

Fixpoint allocAll (cs : list cell) : M (list nat) :=
  match cs with
  | [] => ret []
  | c :: cs' =>
    a <- alloc c ;;
    rest <- allocAll cs' ;;
    ret (a :: rest)
  end.

(** Reading and assigning a [let] binding. *)
Definition readBinding (x : nat) : M slot :=
  c <- read x ;;
  match c with
  | BindingCell v => ret v
  | _ => throw
  end.

Definition writeBinding (x : nat) (v : slot) : M unit :=
  c <- read x ;;
  match c with
  | BindingCell _ => write x (BindingCell v)
  | _ => throw
  end.

(** [o[k]] and [Object.entries(o)] for the object at [o]. *)
Definition getPropAt (o : nat) (k : jsstring) : M (option value) :=
  c <- read o ;;
  match c with
  | ObjectCell props => ret (getProp props k)
  | _ => throw
  end.

Definition entriesAt (o : nat) : M table :=
  c <- read o ;;
  match c with
  | ObjectCell props => ret props
  | _ => throw
  end.

(** [s.match(rx)] for a regular expression without the [g] flag, the only
    kind the extractor matches with: the search starts at 0 whatever
    [lastIndex] holds, and [lastIndex] is not written. *)
Definition stringMatch (s : jsstring) (rx : nat) : M (option matchResult) :=
  c <- read rx ;;
  match c with
  | RegExpCell source false _ => ret (regexMatch s source)
  | _ => throw
  end.

(** [s.replace(rx, '')] for a regular expression with the [g] flag whose
    pattern is one class of code units, as [/,/g] is: every code unit of
    the class is dropped, and [lastIndex], which the replacement steps
    through, is left at 0. *)
Definition stringReplaceAll (s : jsstring) (rx : nat) : M jsstring :=
  c <- read rx ;;
  match c with
  | RegExpCell (Chr p) true _ =>
    _ <- write rx (RegExpCell (Chr p) true 0) ;;
    ret (filter (fun u => negb (p u)) s)
  | _ => throw
  end.

(** [nf.format(x)] for the [Intl.NumberFormat] at [nf]. *)
Definition formatAt (nf : nat) (x : number) : M jsstring :=
  c <- read nf ;;
  match c with
  | NumberFormatCell minFraction maxFraction =>
    ret (formatNumber minFraction maxFraction x)
  | _ => throw
  end.

Section HeapExtractor.

Variable lower : jsstring -> jsstring.

(** The properties of the [currencyCodes] literal. *)
Variable aliases : table.

(** [if (currencyCodes[token]) x = currencyCodes[token];] *)
Definition assignIfKnownAt (currencyCodes : nat) (token : jsstring)
           (x : nat) : M unit :=
  c <- getPropAt currencyCodes token ;;
  if unset c then ret tt
  else
    v <- getPropAt currencyCodes token ;;
    writeBinding x v.

(** [!fromCurrency || !toCurrency] *)
Definition eitherUnset (fromCurrency toCurrency : nat) : M bool :=
  f <- readBinding fromCurrency ;;
  if unset f then ret true
  else
    t <- readBinding toCurrency ;;
    ret (unset t).

Fixpoint patternLoopAt (currencyCodes fromCurrency toCurrency : nat)
         (normalizedQuery : jsstring) (patterns : list nat) : M unit :=
  match patterns with
  | [] => ret tt
  | pattern :: rest =>
    m <- stringMatch normalizedQuery pattern ;;
    match m with
    | None =>
      patternLoopAt currencyCodes fromCurrency toCurrency normalizedQuery rest
    | Some m =>
      match group 1 (groups m), group 2 (groups m) with
      | Some g1, Some g2 =>
        let source := lower g1 in
        let target := lower g2 in
        _ <- assignIfKnownAt currencyCodes source fromCurrency ;;
        _ <- assignIfKnownAt currencyCodes target toCurrency ;;
        open <- eitherUnset fromCurrency toCurrency ;;
        if open
        then patternLoopAt currencyCodes fromCurrency toCurrency
                           normalizedQuery rest
        else ret tt
      | _, _ => throw
      end
    end
  end.

Fixpoint scanLoopAt (fromCurrency toCurrency : nat)
         (normalizedQuery : jsstring) (entries : table) : M unit :=
  match entries with
  | [] => ret tt
  | (key, code) :: rest =>
    if includes normalizedQuery key then
      f <- readBinding fromCurrency ;;
      if unset f then
        _ <- writeBinding fromCurrency (Some (Str code)) ;;
        scanLoopAt fromCurrency toCurrency normalizedQuery rest
      else
        t <- readBinding toCurrency ;;
        differs <- (if unset t
                    then
                      f' <- readBinding fromCurrency ;;
                      ret (negb (match f' with
                                 | Some v => strictEq (Str code) v
                                 | None => false
                                 end))
                    else ret false) ;;
        if differs
        then writeBinding toCurrency (Some (Str code))
        else scanLoopAt fromCurrency toCurrency normalizedQuery rest
    else scanLoopAt fromCurrency toCurrency normalizedQuery rest
  end.

Definition extractCurrencyInfoAt (query : jsstring) : M extraction :=
  currencyCodes <- alloc (ObjectCell aliases) ;;
  let normalizedQuery := lower query in
  amountRx <- alloc (RegExpCell amountRegex false 0) ;;
  amountMatch <- stringMatch normalizedQuery amountRx ;;
  match amountMatch with
  | None => ret (Failure
      (js "Couldn't identify an amount in your query. Please specify an amount to convert."))
  | Some amountMatch =>
    commas <- alloc (RegExpCell (Lit 44) true 0) ;;
    digits <- stringReplaceAll (matched amountMatch) commas ;;
    let amount := parseFloat digits in
    fromCurrency <- alloc (BindingCell None) ;;
    toCurrency <- alloc (BindingCell None) ;;
    patterns <- allocAll (map (fun p => RegExpCell p false 0)
                              conversionPatterns) ;;
    _ <- patternLoopAt currencyCodes fromCurrency toCurrency
                       normalizedQuery patterns ;;
    open <- eitherUnset fromCurrency toCurrency ;;
    _ <- (if open
          then
            entries <- entriesAt currencyCodes ;;
            scanLoopAt fromCurrency toCurrency normalizedQuery entries
          else ret tt) ;;
    f <- readBinding fromCurrency ;;
    t <- readBinding toCurrency ;;
    ret (finish amount (f, t))
  end.

End HeapExtractor.

Section HeapFormatter.

Variable functionText : jsstring -> jsstring.

(** The body of [formatCurrencyResult], for the symbol table at
    [symbols]. *)
Definition formatCurrencyResultAt (symbols : nat) (amount : number)
           (fromCurrency toCurrency : value) (result : number)
  : M jsstring :=
  plain <- alloc (NumberFormatCell 0 3) ;;
  formattedAmount <- formatAt plain amount ;;
  fixed <- alloc (NumberFormatCell 2 2) ;;
  formattedResult <- formatAt fixed result ;;
  f <- getPropAt symbols (toText functionText fromCurrency) ;;
  let fromSymbol := if unset f then Str [] else orEmpty f in
  t <- getPropAt symbols (toText functionText toCurrency) ;;
  let toSymbol := if unset t then Str [] else orEmpty t in
  ret (toText functionText fromSymbol ++ formattedAmount ++ js " "
         ++ toText functionText fromCurrency
         ++ js " is approximately " ++ toText functionText toSymbol
         ++ formattedResult ++ js " " ++ toText functionText toCurrency
         ++ js " at the current exchange rate.").

End HeapFormatter.

(** The first revision: every table is built by the call that uses it. *)
Definition converterExtract (lower : jsstring -> jsstring)
           (query : jsstring) : M extraction :=
  extractCurrencyInfoAt lower Converter.currencyCodes query.

Definition converterFormat (functionText : jsstring -> jsstring)
           (amount : number) (fromCurrency toCurrency : value)
           (result : number) : M jsstring :=
  currencySymbols <- alloc (ObjectCell Converter.currencySymbols) ;;
  formatCurrencyResultAt functionText currencySymbols amount
                         fromCurrency toCurrency result.

(** The later revision: the module's evaluation makes the
    [CURRENCY_SYMBOLS] object once, from [CURRENCY_LIST], and the
    formatter reads it through the module-level binding.  (The list
    itself is read by neither function.) *)
Definition initialise : M nat :=
  alloc (ObjectCell ConverterForm.CURRENCY_SYMBOLS).

Definition converterFormExtract (lower : jsstring -> jsstring)
           (query : jsstring) : M extraction :=
  extractCurrencyInfoAt lower ConverterForm.currencyCodes query.

Definition converterFormFormat (functionText : jsstring -> jsstring)
           (CURRENCY_SYMBOLS : nat) (amount : number)
           (fromCurrency toCurrency : value) (result : number)
  : M jsstring :=
  formatCurrencyResultAt functionText CURRENCY_SYMBOLS amount
                         fromCurrency toCurrency result.

(** ** Sequences of calls *)

Inductive call : Type :=
| Extract (query : jsstring)
| Format (amount : number) (fromCurrency toCurrency : value)
         (result : number).

Inductive response : Type :=
| Extracted (x : outcome extraction)
| Formatted (s : outcome jsstring).

Fixpoint run (perform : heap -> call -> heap * response) (h : heap)
         (cs : list call) : heap * list response :=
  match cs with
  | [] => (h, [])
  | c :: cs' =>
    let (h1, r) := perform h c in
    let (h2, rs) := run perform h1 cs' in
    (h2, r :: rs)
  end.

Definition performConverter (lower functionText : jsstring -> jsstring)
           (h : heap) (c : call) : heap * response :=
  match c with
  | Extract q =>
    let (x, h') := converterExtract lower q h in (h', Extracted x)
  | Format a f t r =>
    let (s, h') := converterFormat functionText a f t r h in
    (h', Formatted s)
  end.

Definition performConverterForm (lower functionText : jsstring -> jsstring)
           (CURRENCY_SYMBOLS : nat) (h : heap) (c : call)
  : heap * response :=
  match c with
  | Extract q =>
    let (x, h') := converterFormExtract lower q h in (h', Extracted x)
  | Format a f t r =>
    let (s, h') :=
        converterFormFormat functionText CURRENCY_SYMBOLS a f t r h in
    (h', Formatted s)
  end.

(** What the functions without a heap return, as the outcome of a call. *)
Definition extracted (x : extraction) : outcome extraction :=
  match x with
  | TypeError => Threw
  | _ => Ok x
  end.

(** What a call returns, computed without a heap. *)
Definition answerConverter (lower functionText : jsstring -> jsstring)
           (c : call) : response :=
  match c with
  | Extract q =>
    Extracted (extracted (extractCurrencyInfo lower Converter.currencyCodes q))
  | Format a f t r => Formatted (Ok (Converter.format functionText a f t r))
  end.

Definition answerConverterForm (lower functionText : jsstring -> jsstring)
           (c : call) : response :=
  match c with
  | Extract q =>
    Extracted (extracted
                 (extractCurrencyInfo lower ConverterForm.currencyCodes q))
  | Format a f t r =>
    Formatted (Ok (ConverterForm.format functionText a f t r))
  end.

(** Every cell of [h] is found unchanged in [h']. *)
Definition preserves (h h' : heap) : Prop :=
  forall a c, nth_error h a = Some c -> nth_error h' a = Some c.

(** The heap [h] differs from [start] in the two bindings at most, which
    hold [f] and [t]. *)
Definition framed (start : heap) (fromCurrency toCurrency : nat)
           (h : heap) (f t : slot) : Prop :=
  (forall a, a <> fromCurrency -> a <> toCurrency ->
             nth_error h a = nth_error start a)
  /\ nth_error h fromCurrency = Some (BindingCell f)
  /\ nth_error h toCurrency = Some (BindingCell t).

(** Every alias key that occurs in the query maps to the code [c]. *)
Definition presentMapTo (q : jsstring) (entries : table) (c : jsstring)
  : bool :=
  forallb (fun kv => implb (includes q (fst kv)) (jseqb (snd kv) c)) entries.

(** The slot is empty, holds a code of the table, or holds an inherited
    member of [Object.prototype]. *)
Definition fromTable (codes : table) (x : slot) : Prop :=
  match x with
  | Some (Str s) => In s (map snd codes)
  | _ => True
  end.

(** The formatter finds a symbol for the code of every entry. *)
Definition allHaveSymbols (functionText : jsstring -> jsstring)
           (symbols codes : table) : bool :=
  forallb (fun kv => match symbolOf functionText symbols (Str (snd kv)) with
                     | Some _ => true
                     | None => false
                     end) codes.

Definition supportedCodes : list jsstring :=
  map js [ "USD"; "EUR"; "GBP"; "JPY"; "INR";
           "CAD"; "AUD"; "CHF"; "CNY" ]%string.

Definition groupChar (c : code_unit) : bool :=
  isDigit c || (c =? 44) || (c =? 45).

(** A rendering with exactly two fraction digits: digits, grouping commas
    and a sign, then a point and two digits. *)
Definition twoFractionDigits (s : jsstring) : bool :=
  match rev s with
  | d2 :: d1 :: p :: body =>
    isDigit d2 && isDigit d1 && (p =? 46)
    && forallb groupChar body
    && negb (Nat.eqb (List.length body) 0)
  | _ => false
  end.

(** ** The texts a pattern can match *)

(** Every quantifier of the pattern has its lower bound below its upper
    bound, as the syntax of regular expressions requires. *)
Fixpoint wellFormed (r : regex) : bool :=
  match r with
  | Eps | Chr _ | Bnd => true
  | Cat r1 r2 | Alt r1 r2 => wellFormed r1 && wellFormed r2
  | Rep min max r1 =>
    match max with
    | Some n => Nat.leb min n
    | None => true
    end && wellFormed r1
  | Grp _ r1 => wellFormed r1
  end.

Definition withinBounds (min : nat) (max : option nat) (n : nat) : Prop :=
  (min <= n)%nat /\ match max with
                    | Some k => (n <= k)%nat
                    | None => True
                    end.

(** The texts of the regular language of the pattern; the word boundary
    consumes nothing. *)
Fixpoint lang (r : regex) (s : jsstring) : Prop :=
  match r with
  | Eps | Bnd => s = []
  | Chr p => exists ch, s = [ch] /\ p ch = true
  | Cat r1 r2 => exists s1 s2, s = s1 ++ s2 /\ lang r1 s1 /\ lang r2 s2
  | Alt r1 r2 => lang r1 s \/ lang r2 s
  | Rep min max r1 =>
    exists pieces,
      s = List.concat pieces /\ Forall (lang r1) pieces /\
      withinBounds min max (List.length pieces)
  | Grp _ r1 => lang r1 s
  end.

(** The pattern can match the empty text. *)
Fixpoint nullable (r : regex) : bool :=
  match r with
  | Eps | Bnd => true
  | Chr _ => false
  | Cat r1 r2 => nullable r1 && nullable r2
  | Alt r1 r2 => nullable r1 || nullable r2
  | Rep min _ r1 => Nat.eqb min 0 || nullable r1
  | Grp _ r1 => nullable r1
  end.

(** The code units a matched text can start with. *)
Fixpoint firstOf (r : regex) (ch : code_unit) : bool :=
  match r with
  | Eps | Bnd => false
  | Chr p => p ch
  | Cat r1 r2 => firstOf r1 ch || (nullable r1 && firstOf r2 ch)
  | Alt r1 r2 => firstOf r1 ch || firstOf r2 ch
  | Rep _ _ r1 | Grp _ r1 => firstOf r1 ch
  end.

(** The code units a matched text can contain. *)
Fixpoint charsOf (r : regex) (ch : code_unit) : bool :=
  match r with
  | Eps | Bnd => false
  | Chr p => p ch
  | Cat r1 r2 | Alt r1 r2 => charsOf r1 ch || charsOf r2 ch
  | Rep _ _ r1 | Grp _ r1 => charsOf r1 ch
  end.

(** A matcher is sound for a set of texts when every state it hands to
    its continuation lies further on by a text of the set. *)
Definition sound (input : jsstring) (m : mstate -> cont -> option mstate)
           (L : jsstring -> Prop) : Prop :=
  forall x c z, m x c = Some z ->
    exists y, c y = Some z /\ (endIndex x <= endIndex y)%nat /\
              L (slice input (endIndex x) (endIndex y)).

(** A digit, a comma or a point. *)
Definition amountChar (c : code_unit) : bool :=
  isDigit c || (c =? 44) || (c =? 46).

(** Not NaN and not negative: zero or more, up to [Infinity]. *)
Definition nonNegative (x : number) : bool :=
  match x with
  | Finite false _ _ | Infinity false => true
  | _ => false
  end.

(** ** Vocabulary for the properties of the scan *)

(** The key of the entry occurs in the query. *)
Definition present (q : jsstring) (kv : jsstring * jsstring) : bool :=
  includes q (fst kv).

(** Every code of the table is a non-empty string. *)
Definition nonEmptyCodes (entries : table) : bool :=
  forallb (fun kv => match snd kv with [] => false | _ :: _ => true end)
          entries.

(** Two entries with different codes have their keys in the query. *)
Definition twoCodesPresent (q : jsstring) (entries : table) : Prop :=
  exists k1 c1 k2 c2,
    In (k1, c1) entries /\ In (k2, c2) entries /\
    includes q k1 = true /\ includes q k2 = true /\ c1 <> c2.

(** Both slots hold a truthy value. *)
Definition resolved (st : slot * slot) : bool :=
  negb (unset (fst st)) && negb (unset (snd st)).

(** The text holds no yen sign (U+00A5). *)
Definition noYen (s : jsstring) : bool :=
  forallb (fun c => negb (c =? 165)) s.

(** The value comes from a run of the text: a code is the code of an
    alias whose key occurs in the text, and a member of
    [Object.prototype] is the one that a run of the text names. *)
Definition origin (codes : table) (q : jsstring) (v : value) : Prop :=
  exists key,
    includes q key = true /\
    match v with
    | Str s => In (key, s) codes
    | _ => inherited key = Some v
    end.

(** The slot is empty or holds a value that comes from the text. *)
Definition backed (codes : table) (q : jsstring) (x : slot) : Prop :=
  match x with
  | Some v => origin codes q v
  | None => True
  end.

(** The aliases of a code, in table order. *)
Definition aliasesOf (codes : table) (c : jsstring) : list jsstring :=
  map fst (filter (fun kv => jseqb (snd kv) c) codes).

(** The codes of [CURRENCY_LIST] that the symbol table of the first
    revision does not have. *)
Definition addedCodes : list jsstring :=
  filter (fun c => match ownProp Converter.currencySymbols c with
                   | Some _ => false
                   | None => true
                   end)
         (map (fun c => js (ConverterForm.code c)) ConverterForm.CURRENCY_LIST).

(** * Properties *)

(** ** The matcher and the captures *)

Lemma memNat_app k l1 l2 :
  memNat k (l1 ++ l2) = memNat k l1 || memNat k l2.
Proof. unfold memNat. apply existsb_app. Qed.

Lemma repGroups_groupsOf k r :
  memNat k (groupsOf r) = false -> memNat k (repGroups r) = false.
Proof.
  induction r; simpl; intros H; try reflexivity.
  - rewrite memNat_app in *. apply orb_false_iff in H as [H1 H2].
    rewrite IHr1, IHr2; auto.
  - rewrite memNat_app in *. apply orb_false_iff in H as [H1 H2].
    rewrite IHr1, IHr2; auto.
  - assumption.
  - apply orb_false_iff in H as [_ H]. auto.
Qed.

Lemma has_clearGroups k gs x :
  memNat k gs = false -> has k (clearGroups gs x) = has k x.
Proof.
  intros Hk. unfold has, clearGroups. simpl.
  induction (captures x) as [|[j se] l IH]; simpl; [reflexivity|].
  destruct (Nat.eqb k j) eqn:E.
  - apply Nat.eqb_eq in E. subst j. rewrite Hk. simpl.
    rewrite Nat.eqb_refl. reflexivity.
  - destruct (memNat j gs); simpl; [exact IH|].
    rewrite E. exact IH.
Qed.

Section MatcherFacts.

Variable input : jsstring.

Lemma repeatMatcher_hands m gs made gone :
  hands m made gone ->
  (forall k, memNat k gs = false -> gone k = false) ->
  forall fuel min max,
    hands (repeatMatcher m gs fuel min max) (fun _ => false)
          (fun k => memNat k gs).
Proof.
  intros Hm Hgs. induction fuel as [|fuel IH]; intros min max x c z H.
  - simpl in H. destruct max as [[|n]|]; destruct min;
      try discriminate; exists x; split; auto; intros k [F|[Hk _]];
      try discriminate; assumption.
  - simpl in H.
    assert (Hbase : c x = Some z ->
              exists y, c y = Some z /\
                forall k, false = true \/
                          (has k x = true /\ memNat k gs = false) ->
                          has k y = true).
    { intros Hc. exists x. split; auto. intros k [F|[Hk _]];
        [discriminate|assumption]. }
    assert (Hstep : forall min' max',
              m (clearGroups gs x)
                (fun y => if Nat.eqb min 0
                              && Nat.eqb (endIndex y) (endIndex x)
                          then None
                          else repeatMatcher m gs fuel min' max' y c)
              = Some z ->
              exists y, c y = Some z /\
                forall k, false = true \/
                          (has k x = true /\ memNat k gs = false) ->
                          has k y = true).
    { intros min' max' Hr. apply Hm in Hr as (y1 & Hd & P1).
      destruct (Nat.eqb min 0 && Nat.eqb (endIndex y1) (endIndex x));
        [discriminate|].
      apply IH in Hd as (y2 & Hc & P2). exists y2. split; auto.
      intros k [F|[Hk Hg]]; [discriminate|].
      apply P2. right. split; auto. apply P1. right.
      rewrite has_clearGroups by assumption. auto. }
    destruct max as [[|n]|].
    + auto.
    + destruct min.
      * match type of H with
        | match ?t with _ => _ end = _ => destruct t eqn:E
        end.
        -- inversion H; subst. eapply Hstep. exact E.
        -- auto.
      * eapply Hstep. exact H.
    + destruct min.
      * match type of H with
        | match ?t with _ => _ end = _ => destruct t eqn:E
        end.
        -- inversion H; subst. eapply Hstep. exact E.
        -- auto.
      * eapply Hstep. exact H.
Qed.

Lemma matcher_hands r :
  hands (matcher input r) (fun k => sure k r)
        (fun k => memNat k (repGroups r)).
Proof.
  induction r; intros x c z H; simpl in H.
  - exists x. split; auto. intros k [F|[Hk _]]; [discriminate|auto].
  - destruct (nth_error input (endIndex x)); [|discriminate].
    destruct (p c0); [|discriminate].
    eexists. split; [exact H|]. intros k [F|[Hk _]]; [discriminate|auto].
  - apply IHr1 in H as (y1 & H1 & P1).
    apply IHr2 in H1 as (y2 & H2 & P2).
    exists y2. split; auto. simpl. intros k Hk. apply P2.
    rewrite memNat_app in Hk.
    destruct (sure k r2) eqn:S2; [left; reflexivity|].
    right. rewrite orb_false_r in Hk.
    destruct Hk as [Hk|[Hk Hg]].
    + apply andb_true_iff in Hk as [Hk Hn].
      apply negb_true_iff in Hn. split; auto.
    + apply orb_false_iff in Hg as [G1 G2]. split; auto.
  - destruct (matcher input r1 x c) eqn:E.
    + inversion H; subst. apply IHr1 in E as (y & Hc & P).
      exists y. split; auto. simpl. intros k Hk. apply P.
      rewrite memNat_app in Hk. destruct Hk as [Hk|[Hk Hg]].
      * apply andb_true_iff in Hk as [Hk _]. auto.
      * apply orb_false_iff in Hg as [G1 _]. auto.
    + apply IHr2 in H as (y & Hc & P).
      exists y. split; auto. simpl. intros k Hk. apply P.
      rewrite memNat_app in Hk. destruct Hk as [Hk|[Hk Hg]].
      * apply andb_true_iff in Hk as [_ Hk]. auto.
      * apply orb_false_iff in Hg as [_ G2]. auto.
  - eapply repeatMatcher_hands in H; [exact H|exact IHr|].
    intros k. apply repGroups_groupsOf.
  - apply IHr in H as (y & Hc & P).
    eexists. split; [exact Hc|]. simpl. intros j Hj.
    unfold has. simpl. destruct (Nat.eqb j k) eqn:E; [reflexivity|].
    apply P. simpl in Hj. exact Hj.
  - destruct (atBoundary input (endIndex x)); [|discriminate].
    exists x. split; auto. intros k [F|[Hk _]]; [discriminate|auto].
Qed.

Lemma searchFrom_sure r k :
  sure k r = true ->
  forall fuel i j y, searchFrom input r fuel i = Some (j, y) ->
                     has k y = true.
Proof.
  intros Hs. induction fuel as [|fuel IH]; intros i j y H; simpl in H.
  - destruct (matcher input r (MState i []) (fun y => Some y)) eqn:E;
      [|discriminate].
    inversion H; subst. apply matcher_hands in E as (y' & Hy & P).
    inversion Hy; subst. apply P. auto.
  - destruct (matcher input r (MState i []) (fun y => Some y)) eqn:E.
    + inversion H; subst. apply matcher_hands in E as (y' & Hy & P).
      inversion Hy; subst. apply P. auto.
    + eapply IH. exact H.
Qed.

End MatcherFacts.

(** ** The iteration bound of the quantifier is enough *)

Lemma repeatMatcher_unfold m gs fuel min max x c :
  repeatMatcher m gs (S fuel) min max x c
  = match max with
    | Some O => c x
    | _ =>
      match min with
      | S _ =>
        m (clearGroups gs x)
          (fun y =>
             if Nat.eqb min 0 && Nat.eqb (endIndex y) (endIndex x) then None
             else repeatMatcher m gs fuel (Nat.pred min)
                                (option_map Nat.pred max) y c)
      | O =>
        match m (clearGroups gs x)
                (fun y =>
                   if Nat.eqb min 0 && Nat.eqb (endIndex y) (endIndex x)
                   then None
                   else repeatMatcher m gs fuel (Nat.pred min)
                                      (option_map Nat.pred max) y c) with
        | Some z => Some z
        | None => c x
        end
      end
    end.
Proof. destruct max as [[|n]|]; destruct min; reflexivity. Qed.

Section Fuel.

Variable input : jsstring.

Lemma repeatMatcher_local m gs :
  local input m ->
  forall fuel min max, local input (repeatMatcher m gs fuel min max).
Proof.
  intros Hm. induction fuel as [|fuel IH]; intros min max x c c' H.
  - simpl. destruct max as [[|n]|]; destruct min; try reflexivity;
      apply H; lia.
  - rewrite !repeatMatcher_unfold.
    assert (Hx : c x = c' x) by (apply H; lia).
    assert (Hd : m (clearGroups gs x)
                   (fun y =>
                      if Nat.eqb min 0 && Nat.eqb (endIndex y) (endIndex x)
                      then None
                      else repeatMatcher m gs fuel (Nat.pred min)
                                         (option_map Nat.pred max) y c)
                 = m (clearGroups gs x)
                     (fun y =>
                        if Nat.eqb min 0 && Nat.eqb (endIndex y) (endIndex x)
                        then None
                        else repeatMatcher m gs fuel (Nat.pred min)
                                           (option_map Nat.pred max) y c')).
    { apply Hm. intros y Hy1 Hy2. simpl in Hy1, Hy2.
      destruct (Nat.eqb min 0 && Nat.eqb (endIndex y) (endIndex x));
        [reflexivity|].
      apply IH. intros y' H1 H2. apply H; lia. }
    rewrite Hd, Hx. reflexivity.
Qed.

Lemma matcher_local r : local input (matcher input r).
Proof.
  induction r; intros x c c' H; simpl.
  - apply H; lia.
  - destruct (nth_error input (endIndex x)) eqn:E; [|reflexivity].
    destruct (p c0); [|reflexivity].
    assert (endIndex x < List.length input)%nat
      by (apply nth_error_Some; rewrite E; discriminate).
    apply H; simpl; lia.
  - apply IHr1. intros y Hy1 Hy2. apply IHr2.
    intros y' H1 H2. apply H; lia.
  - rewrite (IHr1 x c c' H), (IHr2 x c c' H). reflexivity.
  - apply repeatMatcher_local; assumption.
  - apply IHr. intros y Hy1 Hy2. apply H; simpl; lia.
  - destruct (atBoundary input (endIndex x)); [|reflexivity].
    apply H; lia.
Qed.

Lemma local_ext m x c c' :
  local input m -> (forall y, c y = c' y) -> m x c = m x c'.
Proof. intros Hm H. apply Hm. intros y _ _. apply H. Qed.

Lemma repeatMatcher_strict m gs :
  local input m -> strict m ->
  forall fuel min max, strict (repeatMatcher m gs fuel min max).
Proof.
  intros Hl Hm. induction fuel as [|fuel IH]; intros min max x.
  - simpl. destruct max as [[|n]|]; destruct min; reflexivity.
  - rewrite repeatMatcher_unfold.
    assert (Hd : m (clearGroups gs x)
                   (fun y =>
                      if Nat.eqb min 0 && Nat.eqb (endIndex y) (endIndex x)
                      then None
                      else repeatMatcher m gs fuel (Nat.pred min)
                                         (option_map Nat.pred max) y
                                         (fun _ => None))
                 = None).
    { transitivity (m (clearGroups gs x) (fun _ => None)); [|apply Hm].
      apply local_ext; [assumption|]. intros y.
      destruct (Nat.eqb min 0 && Nat.eqb (endIndex y) (endIndex x));
        [reflexivity|apply IH]. }
    rewrite Hd. destruct max as [[|n]|]; destruct min; reflexivity.
Qed.

Lemma matcher_strict r : strict (matcher input r).
Proof.
  induction r; intros x; simpl.
  - reflexivity.
  - destruct (nth_error input (endIndex x)); [|reflexivity].
    destruct (p c); reflexivity.
  - transitivity (matcher input r1 x (fun _ => None)); [|apply IHr1].
    apply local_ext; [apply matcher_local|]. intros y. apply IHr2.
  - rewrite IHr1. apply IHr2.
  - apply repeatMatcher_strict; [apply matcher_local|assumption].
  - apply IHr.
  - destruct (atBoundary input (endIndex x)); reflexivity.
Qed.

(** With at least [min] plus the number of code units left as bound, one
    more unit of fuel changes nothing. *)
Lemma repeatMatcher_fuel_step m gs :
  local input m -> strict m ->
  forall fuel min max x c,
    (min + (List.length input - endIndex x) <= fuel)%nat ->
    repeatMatcher m gs fuel min max x c
    = repeatMatcher m gs (S fuel) min max x c.
Proof.
  intros Hl Hm. induction fuel as [|fuel IH]; intros min max x c Hf.
  - assert (min = 0%nat) by lia. subst min.
    rewrite repeatMatcher_unfold.
    assert (Hd : m (clearGroups gs x)
                   (fun y =>
                      if Nat.eqb 0 0 && Nat.eqb (endIndex y) (endIndex x)
                      then None
                      else repeatMatcher m gs 0 (Nat.pred 0)
                                         (option_map Nat.pred max) y c)
                 = None).
    { transitivity (m (clearGroups gs x) (fun _ => None)); [|apply Hm].
      apply Hl. intros y Hy1 Hy2. simpl in Hy1, Hy2.
      assert (E : endIndex y = endIndex x) by lia.
      rewrite E, !Nat.eqb_refl. reflexivity. }
    rewrite Hd. destruct max as [[|n]|]; reflexivity.
  - rewrite (repeatMatcher_unfold m gs (S fuel)).
    rewrite (repeatMatcher_unfold m gs fuel).
    assert (Hd : m (clearGroups gs x)
                   (fun y =>
                      if Nat.eqb min 0 && Nat.eqb (endIndex y) (endIndex x)
                      then None
                      else repeatMatcher m gs fuel (Nat.pred min)
                                         (option_map Nat.pred max) y c)
                 = m (clearGroups gs x)
                     (fun y =>
                        if Nat.eqb min 0 && Nat.eqb (endIndex y) (endIndex x)
                        then None
                        else repeatMatcher m gs (S fuel) (Nat.pred min)
                                           (option_map Nat.pred max) y c)).
    { apply Hl. intros y Hy1 Hy2. simpl in Hy1, Hy2.
      destruct (Nat.eqb min 0) eqn:E0;
        destruct (Nat.eqb (endIndex y) (endIndex x)) eqn:E1; simpl;
        try reflexivity; apply IH.
      - apply Nat.eqb_eq in E0. apply Nat.eqb_neq in E1. subst min.
        simpl. lia.
      - apply Nat.eqb_neq in E0. lia.
      - apply Nat.eqb_neq in E0. lia. }
    rewrite Hd. reflexivity.
Qed.

(** The bound [matcher] gives a quantifier is enough: any larger bound
    gives the same result. *)
Lemma repeatMatcher_fuel_enough r min max x c extra :
  repeatMatcher (matcher input r) (groupsOf r)
                (min + (List.length input - endIndex x) + extra) min max x c
  = matcher input (Rep min max r) x c.
Proof.
  simpl. induction extra as [|extra IH].
  - rewrite Nat.add_0_r. reflexivity.
  - rewrite Nat.add_succ_r, <- IH. symmetry.
    apply repeatMatcher_fuel_step;
      [apply matcher_local|apply matcher_strict|lia].
Qed.

End Fuel.

Lemma group_captures k s caps :
  group k (map (fun b => (fst b, slice s (fst (snd b)) (snd (snd b)))) caps)
  = option_map (fun se => slice s (fst se) (snd se)) (captureOf k caps).
Proof.
  induction caps as [|[j se] l IH]; simpl; [reflexivity|].
  destruct (Nat.eqb k j); [reflexivity|exact IH].
Qed.

Lemma regexMatch_sure q r k m :
  sure k r = true -> regexMatch q r = Some m ->
  exists g, group k (groups m) = Some g.
Proof.
  intros Hs H. unfold regexMatch in H.
  destruct (searchFrom q r (List.length q) 0) as [[i y]|] eqn:E;
    [|discriminate].
  inversion H; subst; simpl. rewrite group_captures.
  apply (searchFrom_sure q r k Hs) in E. unfold has in E.
  destruct (captureOf k (captures y)); [|discriminate].
  eexists. reflexivity.
Qed.

Lemma conversionPatterns_capture : Forall capturesBoth conversionPatterns.
Proof. repeat constructor. Qed.

Lemma jseqb_refl s : jseqb s s = true.
Proof.
  induction s as [|a s IH]; simpl; [reflexivity|].
  rewrite N.eqb_refl. exact IH.
Qed.

Lemma jseqb_eq s t : jseqb s t = true -> s = t.
Proof.
  revert t. induction s as [|a s IH]; intros [|b t] H; simpl in H;
    try discriminate; [reflexivity|].
  apply andb_true_iff in H as [H1 H2].
  apply N.eqb_eq in H1. apply IH in H2. congruence.
Qed.

Section ExtractorFacts.

Variable lower : jsstring -> jsstring.
Variable currencyCodes : table.



Lemma onMatch_groups m g1 g2 st :
  group 1 (groups m) = Some g1 -> group 2 (groups m) = Some g2 ->
  onMatch lower currencyCodes m st = Ok (assignIfKnown currencyCodes (lower g1) (fst st),
                     assignIfKnown currencyCodes (lower g2) (snd st)).
Proof. intros H1 H2. unfold onMatch. rewrite H1, H2. reflexivity. Qed.


(** The pattern loop never throws on patterns whose two groups always
    take part in a match, and it never clears a slot. *)
Lemma patternLoop_total q ps :
  Forall capturesBoth ps ->
  forall st, exists st', patternLoop lower currencyCodes q ps st = Ok st'.
Proof.
  induction 1 as [|p l [S1 S2] _ IH]; intros st; simpl.
  - eexists. reflexivity.
  - destruct (regexMatch q p) as [m|] eqn:E; [|apply IH].
    destruct (regexMatch_sure q p 1 m S1 E) as [g1 G1].
    destruct (regexMatch_sure q p 2 m S2 E) as [g2 G2].
    rewrite (onMatch_groups m g1 g2 st G1 G2).
    match goal with
    | |- context [if ?b then _ else _] => destruct b
    end; [eexists; reflexivity|apply IH].
Qed.


End ExtractorFacts.

(** ** The outcomes of extraction *)

(** Text literals are compared as they stand in what follows. *)
Opaque js.


Lemma finish_cases amount st :
  finish amount st = Failure
    (js "Please specify both the source and target currencies more clearly.") \/
  exists f t, finish amount st = Success amount f t.
Proof.
  destruct st as [[f|] [t|]]; simpl; auto.
  destruct (negb (truthy f) || negb (truthy t)); eauto.
Qed.

(** C3. A query in which the amount pattern finds nothing fails with the
    "no amount" message, whatever currencies it names: the amount check
    comes first and nothing after it is consulted. *)
Theorem C3_no_amount_short_circuits :
  forall (lower : jsstring -> jsstring) (codes : table) (query : jsstring),
    regexMatch (lower query) amountRegex = None ->
    extractCurrencyInfo lower codes query
    = Failure (js "Couldn't identify an amount in your query. Please specify an amount to convert.").
Proof.
  intros lower codes query H. unfold extractCurrencyInfo.
  rewrite H. reflexivity.
Qed.

(** The query "USD to EUR" names two currencies that the second pattern
    resolves, has no amount, and fails with the "no amount" message. *)
Lemma C3_witness :
  regexMatch (toLowerCase (js "USD to EUR")) amountRegex = None /\
  patternLoop toLowerCase Converter.currencyCodes
              (toLowerCase (js "USD to EUR")) conversionPatterns (None, None)
  = Ok (Some (Str (js "USD")), Some (Str (js "EUR"))) /\
  Converter.extract (js "USD to EUR") = Failure
    (js "Couldn't identify an amount in your query. Please specify an amount to convert.").
Proof.
  split; [vm_compute; reflexivity|].
  split; [vm_compute; reflexivity|].
  apply (C3_no_amount_short_circuits toLowerCase Converter.currencyCodes
           (js "USD to EUR")).
  vm_compute. reflexivity.
Defined.





(** A slot that is set is never cleared, but a later pattern that
    resolves it again replaces its value: here "X to Y" sets the source to
    USD from "usd to xyz", and "X in Y" then sets the pair to EUR and
    GBP. *)
Lemma later_pattern_overwrites :
  let q := js "eur in gbp from 5 usd to xyz" in
  map (captured q) conversionPatterns
  = [None; Some (Some (js "usd"), Some (js "xyz")); None; None;
     Some (Some (js "eur"), Some (js "gbp"))]
  /\ patternLoop toLowerCase Converter.currencyCodes q conversionPatterns
                 (None, None)
     = Ok (Some (Str (js "EUR")), Some (Str (js "GBP"))).
Proof. split; vm_compute; reflexivity. Qed.

(** ** The example queries *)

(** C2. "Convert 10000 Indian Rupees to US Dollars" gives amount 10000,
    INR and USD in both revisions.  Only the "X to Y" pattern matches, on
    "rupees to us"; "us" is no alias, so the pattern pass ends with the
    target unset and the table scan completes the pair through the alias
    "dollar". *)
Theorem C2_indian_rupees_to_us_dollars :
  let query := js "Convert 10000 Indian Rupees to US Dollars" in
  let q := toLowerCase query in
  Converter.extract query
  = Success (ofInt 10000) (Str (js "INR")) (Str (js "USD"))
  /\ ConverterForm.extract query
     = Success (ofInt 10000) (Str (js "INR")) (Str (js "USD"))
  /\ map (captured q) conversionPatterns
     = [None; Some (Some (js "rupees"), Some (js "us")); None; None; None]
  /\ patternLoop toLowerCase Converter.currencyCodes q conversionPatterns
                 (None, None)
     = Ok (Some (Str (js "INR")), None)
  /\ patternLoop toLowerCase ConverterForm.currencyCodes q
                 conversionPatterns (None, None)
     = Ok (Some (Str (js "INR")), None)
  /\ scanPhase Converter.currencyCodes q (Some (Str (js "INR")), None)
     = (Some (Str (js "INR")), Some (Str (js "USD")))
  /\ scanPhase ConverterForm.currencyCodes q (Some (Str (js "INR")), None)
     = (Some (Str (js "INR")), Some (Str (js "USD")))
  /\ find (fun kv => includes q (fst kv)) Converter.currencyCodes
     = Some (js "dollar", js "USD")
  /\ find (fun kv => includes q (fst kv)) ConverterForm.currencyCodes
     = Some (js "dollar", js "USD").
Proof. repeat split; vm_compute; reflexivity. Qed.

(** C5. "How much is 200 USD in INR?" gives amount 200, USD and INR in
    both revisions; the first four patterns do not match and the last one,
    "X in Y", captures "usd" and "inr". *)
Theorem C5_usd_in_inr :
  let query := js "How much is 200 USD in INR?" in
  let q := toLowerCase query in
  Converter.extract query
  = Success (ofInt 200) (Str (js "USD")) (Str (js "INR"))
  /\ ConverterForm.extract query
     = Success (ofInt 200) (Str (js "USD")) (Str (js "INR"))
  /\ map (captured q) conversionPatterns
     = [None; None; None; None; Some (Some (js "usd"), Some (js "inr"))]
  /\ patternLoop toLowerCase Converter.currencyCodes q conversionPatterns
                 (None, None)
     = Ok (Some (Str (js "USD")), Some (Str (js "INR"))).
Proof. repeat split; vm_compute; reflexivity. Qed.

(** C8. format(100, "USD", "EUR", 92.345), where 92.345 is the Number
    nearest to 92345/1000, is the sentence with "$100" and "€92.35", in
    both revisions and whatever text the engine gives built-in
    functions. *)
Theorem C8_format_example :
  forall functionText : jsstring -> jsstring,
    Converter.format functionText (ofInt 100) (Str (js "USD"))
                     (Str (js "EUR")) (ofDecimal false 92345 (-3))
    = js "$100 USD is approximately €92.35 EUR at the current exchange rate."
    /\ ConverterForm.format functionText (ofInt 100) (Str (js "USD"))
                            (Str (js "EUR")) (ofDecimal false 92345 (-3))
       = js "$100 USD is approximately €92.35 EUR at the current exchange rate.".
Proof. intros functionText. split; vm_compute; reflexivity. Qed.

(** ** The table scan *)

Lemma scanLoop_cons q key code rest st :
  scanLoop q ((key, code) :: rest) st
  = if includes q key then
      if unset (fst st) then scanLoop q rest (Some (Str code), snd st)
      else if unset (snd st)
              && negb (match fst st with
                       | Some f => strictEq (Str code) f
                       | None => false
                       end)
      then (fst st, Some (Str code))
      else scanLoop q rest st
    else scanLoop q rest st.
Proof. reflexivity. Qed.

(** ** Number rendering *)

Lemma uintUnits_digits d : forallb isDigit (uintUnits d) = true.
Proof. induction d; simpl; auto. Qed.

Lemma digitsOf_nonempty n : digitsOf n <> [].
Proof.
  unfold digitsOf. destruct n as [|p]; [discriminate|]. simpl.
  pose proof (Unsigned.to_uint_nonnil p) as H.
  destruct (Pos.to_uint p); [contradiction| | | | | | | | | |]; discriminate.
Qed.

Lemma forallb_rev {A} (f : A -> bool) l :
  forallb f (rev l) = forallb f l.
Proof.
  induction l as [|a l IH]; simpl; [reflexivity|].
  rewrite forallb_app, IH. simpl. rewrite andb_true_r. apply andb_comm.
Qed.

Lemma groupRev_chars l :
  forallb isDigit l = true ->
  forall i, forallb groupChar (groupRev i l) = true.
Proof.
  induction l as [|d l IH]; intros H i; simpl in *; [reflexivity|].
  apply andb_true_iff in H as [Hd Hl].
  assert (Hg : groupChar d = true)
    by (unfold groupChar; rewrite Hd; reflexivity).
  destruct (Nat.eqb i 3); simpl; rewrite Hg, IH; auto.
Qed.

Lemma groupRev_nonempty l i : l <> [] -> groupRev i l <> [].
Proof.
  destruct l as [|d l]; [contradiction|]. intros _. simpl.
  destruct (Nat.eqb i 3); discriminate.
Qed.

Lemma grouped_chars n : forallb groupChar (grouped n) = true.
Proof.
  unfold grouped. rewrite forallb_rev. apply groupRev_chars.
  rewrite forallb_rev. apply uintUnits_digits.
Qed.

Lemma grouped_nonempty n : grouped n <> [].
Proof.
  unfold grouped. intros H.
  apply (f_equal (@rev code_unit)) in H. rewrite rev_involutive in H.
  simpl in H. revert H. apply groupRev_nonempty.
  intros H. apply (f_equal (@rev code_unit)) in H.
  rewrite rev_involutive in H. revert H. apply digitsOf_nonempty.
Qed.

Lemma minus_chars negative : forallb groupChar (minus negative) = true.
Proof. destruct negative; reflexivity. Qed.

Lemma decimalDigit_isDigit x : isDigit (48 + x mod 10) = true.
Proof.
  unfold isDigit, inRange.
  assert (H : x mod 10 < 10) by (apply N.mod_lt; discriminate).
  set (r := x mod 10) in *. clearbody r.
  apply andb_true_iff. split; apply N.leb_le; lia.
Qed.

Lemma fractionDigits_two n :
  fractionDigits n 2 = [48 + (n / 10) mod 10; 48 + (n / 1) mod 10].
Proof. reflexivity. Qed.

Lemma formatFixed2_finite negative m e :
  exists n,
    formatFixed2 (Finite negative m e)
    = minus negative ++ grouped (n / 100)
        ++ [46; 48 + (n / 10) mod 10; 48 + (n / 1) mod 10].
Proof.
  unfold formatFixed2, formatNumber.
  destruct (shortestDecimal m e) as [c x10].
  exists (roundHalfExpand c x10 (N.of_nat 2)).
  rewrite fractionDigits_two.
  set (n := roundHalfExpand c x10 (N.of_nat 2)).
  set (d1 := 48 + (n / 10) mod 10). set (d2 := 48 + (n / 1) mod 10).
  change (rev [d1; d2]) with [d2; d1].
  assert (T : trimZerosRev 2 [d2; d1] = [d2; d1]).
  { simpl. destruct (d2 =? 48); reflexivity. }
  rewrite T. reflexivity.
Qed.

Lemma twoFractionDigits_app body d1 d2 :
  twoFractionDigits (body ++ [46; d1; d2])
  = isDigit d2 && isDigit d1 && (46 =? 46)
    && forallb groupChar (rev body)
    && negb (Nat.eqb (List.length (rev body)) 0).
Proof. unfold twoFractionDigits. rewrite rev_app_distr. reflexivity. Qed.

Lemma twoFractionDigits_finite x :
  isFinite x = true -> twoFractionDigits (formatFixed2 x) = true.
Proof.
  destruct x as [| |negative m e]; try discriminate. intros _.
  destruct (formatFixed2_finite negative m e) as [n ->].
  rewrite app_assoc, twoFractionDigits_app.
  rewrite !decimalDigit_isDigit, forallb_rev, forallb_app.
  rewrite grouped_chars, minus_chars, length_rev, length_app.
  pose proof (grouped_nonempty (n / 100)) as H.
  destruct (grouped (n / 100)); [contradiction|].
  simpl. rewrite Nat.add_succ_r. reflexivity.
Qed.

(** C6, as stated, fails: the product of 1e308 and 10 is Infinity, which
    the formatter prints as the infinity sign, with no fraction digits. *)
Lemma C6_counterexample :
  let A := ofDecimal false 1 308 in
  let R := ofInt 10 in
  mul A R = Infinity false
  /\ formatFixed2 (mul A R) = js "∞"
  /\ twoFractionDigits (formatFixed2 (mul A R)) = false.
Proof. repeat split; vm_compute; reflexivity. Qed.

(** C6, amended.  For any amount A and rate R whose product is finite, the
    result is printed with exactly two fraction digits after its grouped
    integer part, and that text is what stands between the target symbol
    and the target code in the sentence; the amount is printed by the
    default formatter. *)
Theorem C6_two_fraction_digits :
  forall (functionText : jsstring -> jsstring) (symbols : table)
         (x y : value) (A R : number),
    isFinite (mul A R) = true ->
    twoFractionDigits (formatFixed2 (mul A R)) = true
    /\ formatCurrencyResult functionText symbols A x y (mul A R)
       = toText functionText (orEmpty (symbolOf functionText symbols x))
           ++ formatDefault A ++ js " " ++ toText functionText x
           ++ js " is approximately "
           ++ toText functionText (orEmpty (symbolOf functionText symbols y))
           ++ formatFixed2 (mul A R) ++ js " " ++ toText functionText y
           ++ js " at the current exchange rate.".
Proof.
  intros functionText symbols x y A R H. split.
  - apply twoFractionDigits_finite. exact H.
  - reflexivity.
Qed.

(** 100 at the rate 0.92345: the product is finite and prints as 92.35. *)
Lemma C6_witness :
  isFinite (mul (ofInt 100) (ofDecimal false 92345 (-5))) = true
  /\ twoFractionDigits
       (formatFixed2 (mul (ofInt 100) (ofDecimal false 92345 (-5)))) = true
  /\ formatFixed2 (mul (ofInt 100) (ofDecimal false 92345 (-5)))
     = js "92.35".
Proof.
  split; [vm_compute; reflexivity|].
  split; [|vm_compute; reflexivity].
  apply (C6_two_fraction_digits (fun s => s) Converter.currencySymbols
           (Str (js "USD")) (Str (js "EUR"))
           (ofInt 100) (ofDecimal false 92345 (-5))).
  vm_compute. reflexivity.
Defined.

(** ** Calls do not interfere *)

Lemma bind_ok {A B : Type} (m : M A) (k : A -> M B) h a h' :
  m h = (Ok a, h') -> bind m k h = k a h'.
Proof. intros E. unfold bind. rewrite E. reflexivity. Qed.

Lemma bind_threw {A B : Type} (m : M A) (k : A -> M B) h h' :
  m h = (Threw, h') -> bind m k h = (Threw, h').
Proof. intros E. unfold bind. rewrite E. reflexivity. Qed.

Lemma bind_assoc {A B C : Type} (m : M A) (k1 : A -> M B)
      (k2 : B -> M C) h :
  bind (bind m k1) k2 h = bind m (fun x => bind (k1 x) k2) h.
Proof.
  unfold bind. destruct (m h) as [[a|] h']; reflexivity.
Qed.

Lemma bind_alloc {B : Type} c (k : nat -> M B) h :
  bind (alloc c) k h = k (List.length h) (h ++ [c]).
Proof. reflexivity. Qed.

Lemma update_length a c h : List.length (update a c h) = List.length h.
Proof.
  revert a. induction h as [|x h IH]; intros [|a]; simpl; auto.
Qed.

Lemma update_eq a c h :
  (a < List.length h)%nat -> nth_error (update a c h) a = Some c.
Proof.
  revert a. induction h as [|x h IH]; intros [|a] L; simpl in *;
    [lia|lia|reflexivity|apply IH; lia].
Qed.

Lemma update_neq a b c h :
  a <> b -> nth_error (update a c h) b = nth_error h b.
Proof.
  revert a b. induction h as [|x h IH]; intros [|a] [|b] N; simpl;
    try reflexivity; [contradiction|apply IH; congruence].
Qed.

Lemma nth_error_fresh (h l : heap) k :
  nth_error (h ++ l) (List.length h + k) = nth_error l k.
Proof.
  rewrite nth_error_app2 by lia. f_equal. lia.
Qed.

Lemma preserves_refl h : preserves h h.
Proof. intros a c H. exact H. Qed.

Lemma preserves_trans h1 h2 h3 :
  preserves h1 h2 -> preserves h2 h3 -> preserves h1 h3.
Proof. intros H12 H23 a c H. apply H23, H12, H. Qed.

Lemma preserves_app h l : preserves h (h ++ l).
Proof.
  intros a c H. rewrite nth_error_app1; [exact H|].
  apply nth_error_Some. congruence.
Qed.

Lemma readBinding_spec h x v :
  nth_error h x = Some (BindingCell v) -> readBinding x h = (Ok v, h).
Proof. intros E. unfold readBinding, bind, read. rewrite E. reflexivity. Qed.

Lemma writeBinding_spec h x v0 v :
  nth_error h x = Some (BindingCell v0) ->
  writeBinding x v h = (Ok tt, update x (BindingCell v) h).
Proof. intros E. unfold writeBinding, bind, read. rewrite E. reflexivity. Qed.

Lemma getPropAt_spec h o props k :
  nth_error h o = Some (ObjectCell props) ->
  getPropAt o k h = (Ok (getProp props k), h).
Proof. intros E. unfold getPropAt, bind, read. rewrite E. reflexivity. Qed.

Lemma entriesAt_spec h o props :
  nth_error h o = Some (ObjectCell props) -> entriesAt o h = (Ok props, h).
Proof. intros E. unfold entriesAt, bind, read. rewrite E. reflexivity. Qed.

Lemma stringMatch_spec h s rx source lastIndex :
  nth_error h rx = Some (RegExpCell source false lastIndex) ->
  stringMatch s rx h = (Ok (regexMatch s source), h).
Proof. intros E. unfold stringMatch, bind, read. rewrite E. reflexivity. Qed.

Lemma formatAt_spec h nf minFraction maxFraction x :
  nth_error h nf = Some (NumberFormatCell minFraction maxFraction) ->
  formatAt nf x h = (Ok (formatNumber minFraction maxFraction x), h).
Proof. intros E. unfold formatAt, bind, read. rewrite E. reflexivity. Qed.

Lemma update_last (h : heap) c0 c :
  update (List.length h) c (h ++ [c0]) = h ++ [c].
Proof. induction h as [|x h IH]; simpl; [reflexivity|]. rewrite IH. reflexivity. Qed.

(** Replacing with [/,/g] on a regular expression just made: the commas
    go, and the cell is as it was. *)
Lemma stringReplaceAll_commas (h : heap) s :
  stringReplaceAll s (List.length h) (h ++ [RegExpCell (Lit 44) true 0])
  = (Ok (removeCommas s), h ++ [RegExpCell (Lit 44) true 0]).
Proof.
  unfold stringReplaceAll, bind, read.
  replace (List.length h) with (List.length h + 0)%nat at 1 by lia.
  rewrite nth_error_fresh. cbn [nth_error Lit write].
  rewrite update_last. unfold ret. f_equal. f_equal.
  unfold removeCommas. apply filter_ext. intros u.
  change (isLower 44) with false. change (isUpper 44) with false.
  cbn [andb]. rewrite !orb_false_r. reflexivity.
Qed.

Lemma allocAll_spec cs :
  forall h,
    allocAll cs h = (Ok (seq (List.length h) (List.length cs)), h ++ cs).
Proof.
  induction cs as [|c cs IH]; intros h.
  - cbn [allocAll ret List.length seq]. rewrite app_nil_r. reflexivity.
  - cbn [allocAll]. rewrite bind_alloc.
    rewrite (bind_ok _ _ _ _ _ (IH (h ++ [c]))).
    cbn [ret List.length seq]. rewrite length_app. cbn [List.length].
    rewrite <- app_assoc. cbn [app].
    replace (List.length h + 1)%nat with (S (List.length h)) by lia.
    reflexivity.
Qed.

Section Frame.

Variable lower : jsstring -> jsstring.
Variable aliases : table.
Variable q : jsstring.

(** The heap when the loops start, and where the alias table and the two
    bindings are in it. *)
Variable start : heap.
Variables currencyCodes fromCurrency toCurrency : nat.

Hypothesis codes_at : nth_error start currencyCodes = Some (ObjectCell aliases).
Hypothesis from_to : fromCurrency <> toCurrency.
Hypothesis codes_from : currencyCodes <> fromCurrency.
Hypothesis codes_to : currencyCodes <> toCurrency.

Lemma framed_codes h f t :
  framed start fromCurrency toCurrency h f t ->
  nth_error h currencyCodes = Some (ObjectCell aliases).
Proof.
  intros (Hs & _ & _). rewrite Hs; [exact codes_at|exact codes_from|exact codes_to].
Qed.

Lemma framed_write_from h f t v :
  framed start fromCurrency toCurrency h f t ->
  framed start fromCurrency toCurrency
         (update fromCurrency (BindingCell v) h) v t.
Proof.
  intros (Hs & Hf & Ht). split; [|split].
  - intros a Na Nb. rewrite update_neq by congruence. apply Hs; assumption.
  - apply update_eq. apply nth_error_Some. congruence.
  - rewrite update_neq by exact from_to. exact Ht.
Qed.

Lemma framed_write_to h f t v :
  framed start fromCurrency toCurrency h f t ->
  framed start fromCurrency toCurrency
         (update toCurrency (BindingCell v) h) f v.
Proof.
  intros (Hs & Hf & Ht). split; [|split].
  - intros a Na Nb. rewrite update_neq by congruence. apply Hs; assumption.
  - rewrite update_neq by congruence. exact Hf.
  - apply update_eq. apply nth_error_Some. congruence.
Qed.

Lemma assignIfKnownAt_from h f t token :
  framed start fromCurrency toCurrency h f t ->
  exists h',
    assignIfKnownAt currencyCodes token fromCurrency h = (Ok tt, h') /\
    framed start fromCurrency toCurrency h'
           (assignIfKnown aliases token f) t.
Proof.
  intros I. pose proof (framed_codes h f t I) as Hc.
  unfold assignIfKnownAt, assignIfKnown.
  rewrite (bind_ok _ _ _ _ _ (getPropAt_spec h _ aliases token Hc)).
  destruct (getProp aliases token) as [v|] eqn:G; cbn [unset].
  - destruct (truthy v); cbn [negb].
    + rewrite (bind_ok _ _ _ _ _ (getPropAt_spec h _ aliases token Hc)), G.
      destruct I as (Hs & Hf & Ht).
      rewrite (writeBinding_spec h _ f _ Hf).
      eexists. split; [reflexivity|].
      apply (framed_write_from h f t). split; [|split]; assumption.
    + exists h. split; [reflexivity|exact I].
  - exists h. split; [reflexivity|exact I].
Qed.

Lemma assignIfKnownAt_to h f t token :
  framed start fromCurrency toCurrency h f t ->
  exists h',
    assignIfKnownAt currencyCodes token toCurrency h = (Ok tt, h') /\
    framed start fromCurrency toCurrency h'
           f (assignIfKnown aliases token t).
Proof.
  intros I. pose proof (framed_codes h f t I) as Hc.
  unfold assignIfKnownAt, assignIfKnown.
  rewrite (bind_ok _ _ _ _ _ (getPropAt_spec h _ aliases token Hc)).
  destruct (getProp aliases token) as [v|] eqn:G; cbn [unset].
  - destruct (truthy v); cbn [negb].
    + rewrite (bind_ok _ _ _ _ _ (getPropAt_spec h _ aliases token Hc)), G.
      destruct I as (Hs & Hf & Ht).
      rewrite (writeBinding_spec h _ t _ Ht).
      eexists. split; [reflexivity|].
      apply (framed_write_to h f t). split; [|split]; assumption.
    + exists h. split; [reflexivity|exact I].
  - exists h. split; [reflexivity|exact I].
Qed.

Lemma eitherUnset_spec h f t :
  framed start fromCurrency toCurrency h f t ->
  eitherUnset fromCurrency toCurrency h = (Ok (unset f || unset t), h).
Proof.
  intros (Hs & Hf & Ht). unfold eitherUnset.
  rewrite (bind_ok _ _ _ _ _ (readBinding_spec h _ f Hf)).
  destruct (unset f); [reflexivity|].
  rewrite (bind_ok _ _ _ _ _ (readBinding_spec h _ t Ht)). reflexivity.
Qed.

(** The pattern loop on the heap does what [patternLoop] does on the two
    slots, and writes to the two bindings only. *)
Lemma patternLoopAt_spec ps :
  forall addrs,
    Forall2 (fun a p =>
               nth_error start a = Some (RegExpCell p false 0)
               /\ a <> fromCurrency /\ a <> toCurrency) addrs ps ->
    forall h f t,
      framed start fromCurrency toCurrency h f t ->
      exists h' f' t',
        framed start fromCurrency toCurrency h' f' t' /\
        match patternLoop lower aliases q ps (f, t) with
        | Ok st =>
          patternLoopAt lower currencyCodes fromCurrency toCurrency q addrs h
          = (Ok tt, h') /\ st = (f', t')
        | Threw =>
          patternLoopAt lower currencyCodes fromCurrency toCurrency q addrs h
          = (Threw, h')
        end.
Proof.
  induction ps as [|p ps IH]; intros addrs HA h f t I.
  - inversion HA; subst. exists h, f, t. split; [exact I|].
    split; reflexivity.
  - inversion HA as [|a p' addrs' ps' (Ha & Naf & Nat) HA']; subst.
    cbn [patternLoopAt patternLoop].
    assert (Hr : nth_error h a = Some (RegExpCell p false 0)).
    { destruct I as (Hs & _ & _). rewrite Hs; assumption. }
    rewrite (bind_ok _ _ _ _ _ (stringMatch_spec h q a p 0 Hr)).
    destruct (regexMatch q p) as [m|]; [|apply IH; assumption].
    unfold onMatch.
    destruct (group 1 (groups m)) as [g1|];
      [|exists h, f, t; split; [exact I|reflexivity]].
    destruct (group 2 (groups m)) as [g2|];
      [|exists h, f, t; split; [exact I|reflexivity]].
    cbv zeta. cbn [fst snd].
    destruct (assignIfKnownAt_from h f t (lower g1) I) as (h1 & E1 & I1).
    rewrite (bind_ok _ _ _ _ _ E1).
    destruct (assignIfKnownAt_to h1 _ t (lower g2) I1) as (h2 & E2 & I2).
    rewrite (bind_ok _ _ _ _ _ E2).
    rewrite (bind_ok _ _ _ _ _ (eitherUnset_spec h2 _ _ I2)).
    rewrite <- negb_orb.
    destruct (unset (assignIfKnown aliases (lower g1) f)
              || unset (assignIfKnown aliases (lower g2) t)); cbn [negb].
    + apply IH; assumption.
    + exists h2, (assignIfKnown aliases (lower g1) f),
        (assignIfKnown aliases (lower g2) t).
      split; [exact I2|]. split; reflexivity.
Qed.

(** Likewise for the table scan. *)
Lemma scanLoopAt_spec entries :
  forall h f t,
    framed start fromCurrency toCurrency h f t ->
    exists h',
      scanLoopAt fromCurrency toCurrency q entries h = (Ok tt, h') /\
      framed start fromCurrency toCurrency h'
             (fst (scanLoop q entries (f, t)))
             (snd (scanLoop q entries (f, t))).
Proof.
  induction entries as [|[key code] rest IH]; intros h f t I.
  - exists h. split; [reflexivity|exact I].
  - cbn [scanLoopAt]. rewrite scanLoop_cons. cbn [fst snd].
    destruct (includes q key); [|apply IH; exact I].
    pose proof I as (Hs & Hf & Ht).
    rewrite (bind_ok _ _ _ _ _ (readBinding_spec h _ f Hf)).
    destruct (unset f).
    + rewrite (bind_ok _ _ _ _ _ (writeBinding_spec h _ f _ Hf)).
      apply IH. apply (framed_write_from h f t). exact I.
    + rewrite (bind_ok _ _ _ _ _ (readBinding_spec h _ t Ht)).
      destruct (unset t); cbn [andb].
      * rewrite bind_assoc.
        rewrite (bind_ok _ _ _ _ _ (readBinding_spec h _ f Hf)).
        unfold ret at 1. cbn [bind].
        match goal with
        | |- context [if ?b then _ else _] => destruct b
        end.
        -- rewrite (writeBinding_spec h _ t _ Ht).
           eexists. split; [reflexivity|]. cbn [fst snd].
           apply (framed_write_to h f t). exact I.
        -- apply IH. exact I.
      * unfold ret at 1. cbn [bind]. apply IH. exact I.
Qed.

End Frame.

Lemma nth_error_last (h : heap) c : nth_error (h ++ [c]) (List.length h) = Some c.
Proof.
  replace (List.length h) with (List.length h + 0)%nat at 1 by lia.
  apply nth_error_fresh.
Qed.

Lemma preserves_grow h h' l : preserves h h' -> preserves h (h' ++ l).
Proof. intros H. eapply preserves_trans; [exact H|apply preserves_app]. Qed.

Lemma patterns_allocated (ps : list regex) (fromCurrency toCurrency : nat) :
  forall h : heap,
    (fromCurrency < List.length h)%nat ->
    (toCurrency < List.length h)%nat ->
    Forall2 (fun a p =>
               nth_error (h ++ map (fun p => RegExpCell p false 0) ps) a
               = Some (RegExpCell p false 0)
               /\ a <> fromCurrency /\ a <> toCurrency)
            (seq (List.length h) (List.length ps)) ps.
Proof.
  induction ps as [|p ps IH]; intros h Lf Lt; cbn [List.length seq map].
  - constructor.
  - constructor.
    + split; [|split; lia].
      replace (List.length h) with (List.length h + 0)%nat at 1 by lia.
      apply nth_error_fresh.
    + specialize (IH (h ++ [RegExpCell p false 0])).
      rewrite length_app in IH. cbn [List.length] in IH.
      replace (List.length h + 1)%nat with (S (List.length h)) in IH by lia.
      rewrite <- app_assoc in IH. cbn [app] in IH.
      apply IH; lia.
Qed.

Lemma extracted_finish amount st :
  extracted (finish amount st) = Ok (finish amount st).
Proof.
  destruct st as [[f|] [t|]]; cbn [finish]; try reflexivity.
  destruct (negb (truthy f) || negb (truthy t)); reflexivity.
Qed.

(** On every heap the extractor returns what [extractCurrencyInfo]
    computes, and leaves every cell it found as it was. *)
Lemma extractCurrencyInfoAt_spec lower aliases query h :
  exists h',
    extractCurrencyInfoAt lower aliases query h
    = (extracted (extractCurrencyInfo lower aliases query), h')
    /\ preserves h h'.
Proof.
  unfold extractCurrencyInfoAt, extractCurrencyInfo. cbv zeta.
  rewrite !bind_alloc.
  set (h1 := h ++ [ObjectCell aliases]).
  set (h2 := h1 ++ [RegExpCell amountRegex false 0]).
  rewrite (bind_ok _ _ _ _ _
             (stringMatch_spec h2 (lower query) _ amountRegex 0
                (nth_error_last h1 _))).
  assert (P2 : preserves h h2)
    by (eapply preserves_trans; apply preserves_app).
  destruct (regexMatch (lower query) amountRegex) as [am|];
    [|exists h2; split; [reflexivity|exact P2]].
  rewrite bind_alloc.
  rewrite (bind_ok _ _ _ _ _ (stringReplaceAll_commas h2 (matched am))).
  set (h3 := h2 ++ [RegExpCell (Lit 44) true 0]).
  rewrite !bind_alloc.
  set (h4 := h3 ++ [BindingCell None]).
  set (h5 := h4 ++ [BindingCell None]).
  rewrite (bind_ok _ _ _ _ _ (allocAll_spec _ h5)).
  rewrite length_map.
  set (start := h5 ++ map (fun p => RegExpCell p false 0) conversionPatterns).
  set (amount := parseFloat (removeCommas (matched am))).
  assert (L1 : List.length h1 = S (List.length h))
    by (unfold h1; rewrite length_app; cbn [List.length]; lia).
  assert (L2 : List.length h2 = S (List.length h1))
    by (unfold h2; rewrite length_app; cbn [List.length]; lia).
  assert (L3 : List.length h3 = S (List.length h2))
    by (unfold h3; rewrite length_app; cbn [List.length]; lia).
  assert (L4 : List.length h4 = S (List.length h3))
    by (unfold h4; rewrite length_app; cbn [List.length]; lia).
  assert (L5 : List.length h5 = S (List.length h4))
    by (unfold h5; rewrite length_app; cbn [List.length]; lia).
  assert (P1 : preserves h1 start).
  { unfold start, h5, h4, h3, h2.
    do 5 apply preserves_grow. apply preserves_refl. }
  assert (P4 : preserves h4 start).
  { unfold start, h5.
    do 2 apply preserves_grow. apply preserves_refl. }
  assert (P5 : preserves h5 start) by apply preserves_app.
  assert (Cat : nth_error start (List.length h) = Some (ObjectCell aliases))
    by (apply P1, nth_error_last).
  assert (I0 : framed start (List.length h3) (List.length h4) start None None).
  { split; [reflexivity|]. split.
    - apply P4. apply nth_error_last.
    - apply P5. apply nth_error_last. }
  assert (Nft : List.length h3 <> List.length h4) by lia.
  assert (Ncf : List.length h <> List.length h3) by lia.
  assert (Nct : List.length h <> List.length h4) by lia.
  assert (Keep : forall hx f t,
             framed start (List.length h3) (List.length h4) hx f t ->
             preserves h hx).
  { intros hx f t (Hs & _ & _) a c Ha.
    assert (La : (a < List.length h)%nat)
      by (apply nth_error_Some; congruence).
    rewrite Hs by lia. apply P1. apply preserves_app. exact Ha. }
  destruct (patternLoopAt_spec lower aliases (lower query) start
              (List.length h) (List.length h3) (List.length h4)
              Cat Nft Ncf Nct conversionPatterns
              (seq (List.length h5) (List.length conversionPatterns))
              (patterns_allocated conversionPatterns (List.length h3)
                 (List.length h4) h5 ltac:(lia) ltac:(lia))
              start None None I0) as (hp & f & t & Ip & Ep).
  unfold slot in Ep.
  destruct (patternLoop lower aliases (lower query) conversionPatterns
              (None, None)) as [st|].
  - destruct Ep as [Ep ->].
    rewrite (bind_ok _ _ _ _ _ Ep).
    rewrite (bind_ok _ _ _ _ _ (eitherUnset_spec start _ _ hp f t Ip)).
    unfold scanPhase. cbn [fst snd].
    destruct (unset f || unset t).
    + rewrite bind_assoc.
      rewrite (bind_ok _ _ _ _ _
                 (entriesAt_spec hp _ aliases
                    (framed_codes aliases start _ _ _ Cat Ncf Nct hp f t Ip))).
      destruct (scanLoopAt_spec (lower query) start _ _ Nft aliases hp f t Ip)
        as (hs & Es & Is).
      rewrite (bind_ok _ _ _ _ _ Es).
      pose proof Is as (_ & Hf & Ht).
      rewrite (bind_ok _ _ _ _ _ (readBinding_spec hs _ _ Hf)).
      rewrite (bind_ok _ _ _ _ _ (readBinding_spec hs _ _ Ht)).
      exists hs. split; [|exact (Keep hs _ _ Is)].
      unfold ret. rewrite extracted_finish.
      rewrite <- surjective_pairing. reflexivity.
    + unfold ret at 1. cbn [bind].
      pose proof Ip as (_ & Hf & Ht).
      rewrite (bind_ok _ _ _ _ _ (readBinding_spec hp _ _ Hf)).
      rewrite (bind_ok _ _ _ _ _ (readBinding_spec hp _ _ Ht)).
      exists hp. split; [|exact (Keep hp _ _ Ip)].
      unfold ret. rewrite extracted_finish. reflexivity.
  - rewrite (bind_threw _ _ _ _ Ep).
    exists hp. split; [reflexivity|exact (Keep hp _ _ Ip)].
Qed.

Lemma formatCurrencyResultAt_spec functionText symbols props amount f t
      result h :
  nth_error h symbols = Some (ObjectCell props) ->
  exists h',
    formatCurrencyResultAt functionText symbols amount f t result h
    = (Ok (formatCurrencyResult functionText props amount f t result), h')
    /\ preserves h h'.
Proof.
  intros Hs. unfold formatCurrencyResultAt, formatCurrencyResult. cbv zeta.
  rewrite bind_alloc.
  rewrite (bind_ok _ _ _ _ _ (formatAt_spec _ _ 0 3 amount (nth_error_last h _))).
  rewrite bind_alloc.
  rewrite (bind_ok _ _ _ _ _ (formatAt_spec _ _ 2 2 result (nth_error_last _ _))).
  set (h2 := (h ++ [NumberFormatCell 0 3]) ++ [NumberFormatCell 2 2]).
  assert (P : preserves h h2)
    by (eapply preserves_trans; apply preserves_app).
  rewrite (bind_ok _ _ _ _ _ (getPropAt_spec h2 _ props _ (P _ _ Hs))).
  rewrite (bind_ok _ _ _ _ _ (getPropAt_spec h2 _ props _ (P _ _ Hs))).
  exists h2. split; [|exact P].
  unfold ret, symbolOf, formatDefault, formatFixed2.
  assert (S : forall o : option value,
             (if unset o then Str [] else orEmpty o)
             = orEmpty match o with
                       | Some v => if truthy v then Some v else None
                       | None => None
                       end).
  { intros [v|]; [|reflexivity]. cbn [unset].
    destruct (truthy v); reflexivity. }
  rewrite !S. reflexivity.
Qed.

Lemma performConverter_spec lower functionText h c :
  exists h',
    performConverter lower functionText h c
    = (h', answerConverter lower functionText c)
    /\ preserves h h'.
Proof.
  destruct c as [q|a f t r]; cbn [performConverter answerConverter].
  - unfold converterExtract.
    destruct (extractCurrencyInfoAt_spec lower Converter.currencyCodes q h)
      as (h' & E & P).
    rewrite E. exists h'. split; [reflexivity|exact P].
  - unfold converterFormat, Converter.format. rewrite bind_alloc.
    destruct (formatCurrencyResultAt_spec functionText (List.length h)
                Converter.currencySymbols a f t r _ (nth_error_last h _))
      as (h' & E & P).
    rewrite E. exists h'. split; [reflexivity|].
    eapply preserves_trans; [apply preserves_app|exact P].
Qed.

Lemma performConverterForm_spec lower functionText symbols h c :
  nth_error h symbols = Some (ObjectCell ConverterForm.CURRENCY_SYMBOLS) ->
  exists h',
    performConverterForm lower functionText symbols h c
    = (h', answerConverterForm lower functionText c)
    /\ preserves h h'.
Proof.
  intros Hs.
  destruct c as [q|a f t r]; cbn [performConverterForm answerConverterForm].
  - unfold converterFormExtract.
    destruct (extractCurrencyInfoAt_spec lower ConverterForm.currencyCodes
                q h) as (h' & E & P).
    rewrite E. exists h'. split; [reflexivity|exact P].
  - unfold converterFormFormat, ConverterForm.format.
    destruct (formatCurrencyResultAt_spec functionText symbols
                ConverterForm.CURRENCY_SYMBOLS a f t r h Hs)
      as (h' & E & P).
    rewrite E. exists h'. split; [reflexivity|exact P].
Qed.

(** When every call, on a heap that has what it needs, answers as
    [answer] says and preserves the heap, so does a sequence of calls. *)
Lemma run_answers (perform : heap -> call -> heap * response)
      (answer : call -> response) (needed : heap) :
  (forall h c,
      preserves needed h ->
      exists h', perform h c = (h', answer c) /\ preserves h h') ->
  forall cs h,
    preserves needed h ->
    snd (run perform h cs) = map answer cs
    /\ preserves h (fst (run perform h cs)).
Proof.
  intros Hp. induction cs as [|c cs IH]; intros h Hn.
  - split; [reflexivity|apply preserves_refl].
  - cbn [run map]. destruct (Hp h c Hn) as (h1 & E & P). rewrite E.
    destruct (IH h1 (preserves_trans _ _ _ Hn P)) as [R P'].
    destruct (run perform h1 cs) as [h2 rs]. cbn [fst snd] in *.
    split; [rewrite R; reflexivity|].
    eapply preserves_trans; eassumption.
Qed.

Lemma alone_answers (perform : heap -> call -> heap * response)
      (answer : call -> response) h cs :
  (forall c, exists h', perform h c = (h', answer c) /\ preserves h h') ->
  map (fun c => snd (perform h c)) cs = map answer cs.
Proof.
  intros Hp. apply map_ext. intros c.
  destruct (Hp c) as (h' & E & _). rewrite E. reflexivity.
Qed.

Lemma same_call_same_answer (answer : call -> response) cs i j c :
  nth_error cs i = Some c -> nth_error cs j = Some c ->
  nth_error (map answer cs) i = nth_error (map answer cs) j.
Proof. intros Hi Hj. rewrite !nth_error_map, Hi, Hj. reflexivity. Qed.

(** C9. Calls to extract and format are run one after the other on a
    heap that holds whatever the program has made so far (for the later
    revision, after the module has made its [CURRENCY_SYMBOLS] object).
    Every cell that was there at the start is unchanged at the end, each
    call returns what it returns when run alone on the first heap, which
    is what the functions compute from the arguments and the tables, and
    two calls with the same arguments, wherever they stand, return the
    same.  This holds for both revisions. *)
Theorem C9_calls_do_not_interfere :
  forall (lower functionText : jsstring -> jsstring) (h : heap)
         (cs : list call),
    (preserves h (fst (run (performConverter lower functionText) h cs))
     /\ snd (run (performConverter lower functionText) h cs)
        = map (fun c => snd (performConverter lower functionText h c)) cs
     /\ snd (run (performConverter lower functionText) h cs)
        = map (answerConverter lower functionText) cs
     /\ forall i j c,
          nth_error cs i = Some c -> nth_error cs j = Some c ->
          nth_error (snd (run (performConverter lower functionText) h cs)) i
          = nth_error (snd (run (performConverter lower functionText) h cs))
                      j)
    /\ (forall CURRENCY_SYMBOLS h0,
          initialise h = (Ok CURRENCY_SYMBOLS, h0) ->
          preserves h0
            (fst (run (performConverterForm lower functionText
                                            CURRENCY_SYMBOLS) h0 cs))
          /\ snd (run (performConverterForm lower functionText
                                            CURRENCY_SYMBOLS) h0 cs)
             = map (fun c =>
                      snd (performConverterForm lower functionText
                                                CURRENCY_SYMBOLS h0 c)) cs
          /\ snd (run (performConverterForm lower functionText
                                            CURRENCY_SYMBOLS) h0 cs)
             = map (answerConverterForm lower functionText) cs
          /\ forall i j c,
               nth_error cs i = Some c -> nth_error cs j = Some c ->
               nth_error (snd (run (performConverterForm
                                      lower functionText CURRENCY_SYMBOLS)
                                   h0 cs)) i
               = nth_error (snd (run (performConverterForm
                                        lower functionText CURRENCY_SYMBOLS)
                                     h0 cs)) j).
Proof.
  intros lower functionText h cs. split.
  - destruct (run_answers (performConverter lower functionText)
                (answerConverter lower functionText) []
                (fun h1 c _ => performConverter_spec lower functionText h1 c)
                cs h) as [R P].
    { intros a c Ha. destruct a; discriminate. }
    split; [exact P|]. split; [|split; [exact R|]].
    + rewrite R. symmetry. apply alone_answers. intros c.
      apply performConverter_spec.
    + intros i j c Hi Hj. rewrite R.
      apply (same_call_same_answer _ cs i j c Hi Hj).
  - intros symbols h0 Hinit. unfold initialise, alloc in Hinit.
    injection Hinit as <- <-.
    set (h0 := h ++ [ObjectCell ConverterForm.CURRENCY_SYMBOLS]).
    assert (Hsym : forall h1,
               preserves h0 h1 ->
               nth_error h1 (List.length h)
               = Some (ObjectCell ConverterForm.CURRENCY_SYMBOLS))
      by (intros h1 P; apply P, nth_error_last).
    assert (Hstep : forall h1 c,
               preserves h0 h1 ->
               exists h',
                 performConverterForm lower functionText (List.length h) h1 c
                 = (h', answerConverterForm lower functionText c)
                 /\ preserves h1 h')
      by (intros h1 c P; apply performConverterForm_spec, Hsym, P).
    destruct (run_answers _ _ h0 Hstep cs h0 (preserves_refl h0)) as [R P].
    split; [exact P|]. split; [|split; [exact R|]].
    + rewrite R. symmetry. apply alone_answers. intros c.
      apply Hstep, preserves_refl.
    + intros i j c Hi Hj. rewrite R.
      apply (same_call_same_answer _ cs i j c Hi Hj).
Qed.

(** Two extractions of the same query with a formatting call in between,
    in the later revision, on a heap that already holds a binding. *)
Lemma C9_witness :
  let cs := [ Extract (js "200 usd in inr");
              Format (ofInt 100) (Str (js "USD")) (Str (js "EUR"))
                     (ofDecimal false 92345 (-3));
              Extract (js "200 usd in inr") ] in
  let h0 := [ BindingCell None;
              ObjectCell ConverterForm.CURRENCY_SYMBOLS ] in
  nth_error (snd (run (performConverterForm toLowerCase (fun s => s) 1)
                      h0 cs)) 0
  = nth_error (snd (run (performConverterForm toLowerCase (fun s => s) 1)
                        h0 cs)) 2
  /\ nth_error (snd (run (performConverterForm toLowerCase (fun s => s) 1)
                         h0 cs)) 0
     = Some (Extracted (Ok (Success (ofInt 200) (Str (js "USD"))
                                    (Str (js "INR"))))).
Proof.
  intros cs h0. split.
  - destruct (C9_calls_do_not_interfere toLowerCase (fun s => s)
                [BindingCell None] cs) as [_ H].
    destruct (H 1%nat h0 eq_refl) as (_ & _ & _ & Hsame).
    apply (Hsame 0%nat 2%nat (Extract (js "200 usd in inr"))); reflexivity.
  - vm_compute. reflexivity.
Defined.

(** ** Currencies of a successful extraction *)

Lemma ownProp_In o k v : ownProp o k = Some v -> In v (map snd o).
Proof.
  induction o as [|[k' v'] o IH]; simpl; [discriminate|].
  destruct (jseqb k k').
  - intros H. injection H as ->. left. reflexivity.
  - intros H. right. auto.
Qed.

Lemma inherited_not_Str k s : inherited k <> Some (Str s).
Proof.
  unfold inherited.
  destruct (jseqb k (js "constructor")); [discriminate|].
  destruct (jseqb k (js "__proto__")); [discriminate|].
  destruct (existsb (jseqb k) objectPrototypeMethods); discriminate.
Qed.

Lemma assignIfKnown_fromTable codes tok x :
  fromTable codes x -> fromTable codes (assignIfKnown codes tok x).
Proof.
  intros H. unfold assignIfKnown, getProp.
  destruct (ownProp codes tok) as [v|] eqn:E.
  - destruct (truthy (Str v)); [|exact H]. simpl.
    eapply ownProp_In. exact E.
  - destruct (inherited tok) as [v|] eqn:I; [|exact H].
    destruct (truthy v); [|exact H].
    destruct v as [s| |]; simpl; auto.
    exfalso. eapply inherited_not_Str. exact I.
Qed.

Lemma patternLoop_fromTable lower codes q ps :
  forall st st',
    patternLoop lower codes q ps st = Ok st' ->
    fromTable codes (fst st) -> fromTable codes (snd st) ->
    fromTable codes (fst st') /\ fromTable codes (snd st').
Proof.
  induction ps as [|p l IH]; intros st st' H Hf Ht; simpl in H.
  - injection H as <-. auto.
  - destruct (regexMatch q p) as [m|]; [|eapply IH; eauto].
    unfold onMatch in H.
    destruct (group 1 (groups m)) as [g1|]; [|discriminate].
    destruct (group 2 (groups m)) as [g2|]; [|discriminate].
    cbn [fst snd] in H.
    pose proof (assignIfKnown_fromTable codes (lower g1) _ Hf) as Kf.
    pose proof (assignIfKnown_fromTable codes (lower g2) _ Ht) as Kt.
    destruct (negb (unset (assignIfKnown codes (lower g1) (fst st)))
              && negb (unset (assignIfKnown codes (lower g2) (snd st)))).
    + injection H as <-. auto.
    + eapply IH; eauto.
Qed.

Lemma scanLoop_fromTable codes q entries :
  incl (map snd entries) (map snd codes) ->
  forall st,
    fromTable codes (fst st) -> fromTable codes (snd st) ->
    fromTable codes (fst (scanLoop q entries st)) /\
    fromTable codes (snd (scanLoop q entries st)).
Proof.
  induction entries as [|[key code] rest IH]; intros Hincl st Hf Ht.
  - auto.
  - assert (Hc : In code (map snd codes))
      by (apply Hincl; left; reflexivity).
    assert (Hr : incl (map snd rest) (map snd codes))
      by (intros x Hx; apply Hincl; right; exact Hx).
    rewrite scanLoop_cons.
    destruct (includes q key); [|apply IH; auto].
    destruct (unset (fst st)); [apply IH; auto|].
    match goal with
    | |- context [if ?b then _ else _] => destruct b
    end; [auto|apply IH; auto].
Qed.

(** Every successful extraction carries, in each currency slot, either a
    code of the alias table or a member inherited from
    [Object.prototype]. *)
Lemma success_fromTable lower codes query amount f t :
  extractCurrencyInfo lower codes query = Success amount f t ->
  fromTable codes (Some f) /\ fromTable codes (Some t).
Proof.
  unfold extractCurrencyInfo.
  destruct (regexMatch (lower query) amountRegex) as [am|]; [|discriminate].
  destruct (patternLoop lower codes (lower query) conversionPatterns
              (None, None)) as [st|] eqn:E; [|discriminate].
  apply patternLoop_fromTable in E as [Hf Ht]; simpl; auto.
  assert (Hs : fromTable codes (fst (scanPhase codes (lower query) st)) /\
               fromTable codes (snd (scanPhase codes (lower query) st))).
  { unfold scanPhase. destruct (unset (fst st) || unset (snd st)); auto.
    apply scanLoop_fromTable; auto. apply incl_refl. }
  destruct (scanPhase codes (lower query) st) as [[f'|] [t'|]];
    simpl; try discriminate.
  destruct (negb (truthy f') || negb (truthy t')); [discriminate|].
  intros H. injection H as _ <- <-. exact Hs.
Qed.

Lemma allHaveSymbols_In functionText symbols codes s :
  allHaveSymbols functionText symbols codes = true ->
  In s (map snd codes) ->
  symbolOf functionText symbols (Str s) <> None.
Proof.
  unfold allHaveSymbols. rewrite forallb_forall. intros H Hin.
  apply in_map_iff in Hin as ([k v] & <- & Hin).
  specialize (H _ Hin). simpl in *.
  destruct (symbolOf functionText symbols (Str v)); [discriminate|].
  discriminate.
Qed.

(** C10.  Every code of either alias table is one of the nine supported
    codes and has a symbol in the formatter's table, so a successful
    extraction whose currencies are codes never takes the empty-symbol
    fallback.  But the currencies need not be codes: a captured token that
    names a member of [Object.prototype] resolves to that member.  On
    "100 usd to __proto__" the target is the prototype object, for which
    the formatter finds no symbol; on "100 constructor to usd" the source
    is the function Object. *)
Theorem C10_symbols_for_extracted_codes :
  forall functionText : jsstring -> jsstring,
    (forallb (fun kv => existsb (jseqb (snd kv)) supportedCodes)
             Converter.currencyCodes = true
     /\ forallb (fun kv => existsb (jseqb (snd kv)) supportedCodes)
                ConverterForm.currencyCodes = true)
    /\ (allHaveSymbols functionText Converter.currencySymbols
                       Converter.currencyCodes = true
        /\ allHaveSymbols functionText ConverterForm.CURRENCY_SYMBOLS
                          ConverterForm.currencyCodes = true)
    /\ (forall lower query amount f t,
          extractCurrencyInfo lower Converter.currencyCodes query
          = Success amount (Str f) (Str t) ->
          symbolOf functionText Converter.currencySymbols (Str f) <> None /\
          symbolOf functionText Converter.currencySymbols (Str t) <> None)
    /\ (forall lower query amount f t,
          extractCurrencyInfo lower ConverterForm.currencyCodes query
          = Success amount (Str f) (Str t) ->
          symbolOf functionText ConverterForm.CURRENCY_SYMBOLS (Str f)
          <> None /\
          symbolOf functionText ConverterForm.CURRENCY_SYMBOLS (Str t)
          <> None)
    /\ (Converter.extract (js "100 usd to __proto__")
        = Success (ofInt 100) (Str (js "USD")) ObjectPrototype
        /\ symbolOf functionText Converter.currencySymbols ObjectPrototype
           = None
        /\ ConverterForm.extract (js "100 usd to __proto__")
           = Success (ofInt 100) (Str (js "USD")) ObjectPrototype
        /\ symbolOf functionText ConverterForm.CURRENCY_SYMBOLS
                    ObjectPrototype
           = None)
    /\ (Converter.extract (js "100 constructor to usd")
        = Success (ofInt 100) (Builtin (js "Object")) (Str (js "USD"))
        /\ ConverterForm.extract (js "100 constructor to usd")
           = Success (ofInt 100) (Builtin (js "Object")) (Str (js "USD"))).
Proof.
  intros functionText.
  assert (A1 : allHaveSymbols functionText Converter.currencySymbols
                              Converter.currencyCodes = true)
    by (vm_compute; reflexivity).
  assert (A2 : allHaveSymbols functionText ConverterForm.CURRENCY_SYMBOLS
                              ConverterForm.currencyCodes = true)
    by (vm_compute; reflexivity).
  split; [split; vm_compute; reflexivity|].
  split; [split; assumption|].
  split; [|split; [|split; [|split; vm_compute; reflexivity]]].
  - intros lower query amount f t H.
    apply success_fromTable in H as [Hf Ht]. unfold fromTable in Hf, Ht.
    split; eapply allHaveSymbols_In; eassumption.
  - intros lower query amount f t H.
    apply success_fromTable in H as [Hf Ht]. unfold fromTable in Hf, Ht.
    split; eapply allHaveSymbols_In; eassumption.
  - repeat split; vm_compute; reflexivity.
Qed.

(** The successful extraction of "200 usd in inr" carries two codes, and
    both have symbols. *)
Lemma C10_witness :
  symbolOf (fun s => s) Converter.currencySymbols (Str (js "USD")) <> None
  /\ symbolOf (fun s => s) Converter.currencySymbols (Str (js "INR")) <> None.
Proof.
  destruct (C10_symbols_for_extracted_codes (fun s => s))
    as (_ & _ & H & _).
  apply (H toLowerCase (js "200 usd in inr") (ofInt 200)
           (js "USD") (js "INR")).
  vm_compute. reflexivity.
Defined.

(** * Further properties of the extractor and the formatter *)

(** ** What the table scan finds *)

Lemma scanLoop_keeps_source q entries :
  forall st : slot * slot,
    unset (fst st) = false -> fst (scanLoop q entries st) = fst st.
Proof.
  induction entries as [|[key code] rest IH]; intros st Hf; [reflexivity|].
  rewrite scanLoop_cons, Hf.
  destruct (includes q key); [|apply IH; exact Hf].
  match goal with
  | |- context [if ?b then _ else _] => destruct b
  end; [reflexivity|apply IH; exact Hf].
Qed.

Lemma scanLoop_keeps_target q entries :
  forall st : slot * slot,
    unset (snd st) = false -> snd (scanLoop q entries st) = snd st.
Proof.
  induction entries as [|[key code] rest IH]; intros st Ht; [reflexivity|].
  rewrite scanLoop_cons, Ht.
  destruct (includes q key); [|apply IH; exact Ht].
  destruct (unset (fst st)).
  - rewrite IH; [reflexivity|exact Ht].
  - cbn [andb]. apply IH. exact Ht.
Qed.

Lemma nonEmptyCodes_In entries k c :
  nonEmptyCodes entries = true -> In (k, c) entries ->
  unset (Some (Str c)) = false.
Proof.
  unfold nonEmptyCodes. rewrite forallb_forall. intros H Hin.
  specialize (H _ Hin). simpl in H. destruct c; [discriminate|reflexivity].
Qed.

(** X1. Entered with the source slot unset, the scan gives it the code of
    the first entry, in table order, whose key occurs in the query: the
    order of the words in the query plays no part. *)
Theorem scan_source_is_first_present :
  forall (q : jsstring) (entries : table) (st : slot * slot),
    nonEmptyCodes entries = true ->
    unset (fst st) = true ->
    fst (scanLoop q entries st)
    = match find (present q) entries with
      | Some (_, code) => Some (Str code)
      | None => fst st
      end.
Proof.
  intros q entries. induction entries as [|[key code] rest IH];
    intros st Hne Hf; [reflexivity|].
  rewrite scanLoop_cons, Hf. cbn [find].
  change (present q (key, code)) with (includes q key).
  assert (Hc : unset (Some (Str code)) = false)
    by (eapply nonEmptyCodes_In; [exact Hne|left; reflexivity]).
  simpl in Hne. apply andb_true_iff in Hne as [_ Hrest].
  destruct (includes q key).
  - rewrite scanLoop_keeps_source; [reflexivity|exact Hc].
  - apply IH; assumption.
Qed.

(** "100 eur usd" and "100 usd eur" both get USD as source: "usd" is the
    first key of the table. *)
Lemma scan_source_is_first_present_witness :
  nonEmptyCodes Converter.currencyCodes = true
  /\ fst (scanLoop (js "100 eur usd") Converter.currencyCodes (None, None))
     = Some (Str (js "USD"))
  /\ fst (scanLoop (js "100 usd eur") Converter.currencyCodes (None, None))
     = Some (Str (js "USD")).
Proof.
  split; [vm_compute; reflexivity|]. split.
  - rewrite (scan_source_is_first_present (js "100 eur usd")
               Converter.currencyCodes (None, None));
      vm_compute; reflexivity.
  - vm_compute. reflexivity.
Defined.

Lemma scanLoop_finds_target q entries :
  nonEmptyCodes entries = true ->
  forall (st : slot * slot) (f : value),
    fst st = Some f -> unset (fst st) = false -> unset (snd st) = true ->
    (exists k c, In (k, c) entries /\ includes q k = true /\
                 strictEq (Str c) f = false) ->
    resolved (scanLoop q entries st) = true.
Proof.
  induction entries as [|[key code] rest IH];
    intros Hne st f Ef Uf Ut (k & c & Hin & Hp & Hd).
  - destruct Hin.
  - assert (Hc : unset (Some (Str code)) = false)
      by (eapply nonEmptyCodes_In; [exact Hne|left; reflexivity]).
    assert (Hne' : nonEmptyCodes rest = true)
      by (simpl in Hne; apply andb_true_iff in Hne as [_ H]; exact H).
    assert (Hnow : resolved (fst st, Some (Str code)) = true).
    { unfold resolved. cbn [fst snd]. rewrite Uf, Hc. reflexivity. }
    rewrite scanLoop_cons, Uf, Ut, Ef. cbn [andb].
    rewrite Ef in Hnow.
    destruct (includes q key) eqn:Hk.
    + destruct (strictEq (Str code) f) eqn:E; cbn [negb];
        [|exact Hnow].
      apply (IH Hne' st f); try assumption.
      destruct Hin as [Heq|Hin]; [|eauto 10].
      injection Heq as -> ->. congruence.
    + apply (IH Hne' st f); try assumption.
      destruct Hin as [Heq|Hin]; [|eauto 10].
      injection Heq as -> ->. congruence.
Qed.

Lemma strictEq_two_codes c1 c2 f :
  c1 <> c2 ->
  strictEq (Str c1) f = false \/ strictEq (Str c2) f = false.
Proof.
  intros Hd. destruct f as [s| |]; try (left; reflexivity). simpl.
  destruct (jseqb c1 s) eqn:E1; [|left; reflexivity].
  destruct (jseqb c2 s) eqn:E2; [|right; reflexivity].
  apply jseqb_eq in E1, E2. congruence.
Qed.

(** The scan completes any state in which a slot is unset, when aliases of
    two different codes occur in the query. *)
Lemma scanLoop_completes q entries :
  nonEmptyCodes entries = true ->
  twoCodesPresent q entries ->
  forall st : slot * slot,
    resolved st = false -> resolved (scanLoop q entries st) = true.
Proof.
  intros Hne Htwo.
  assert (Hset : forall (st : slot * slot) (f : value),
             fst st = Some f -> unset (fst st) = false ->
             unset (snd st) = true ->
             resolved (scanLoop q entries st) = true).
  { intros st f Ef Uf Ut.
    apply (scanLoop_finds_target q entries Hne st f); try assumption.
    destruct Htwo as (k1 & c1 & k2 & c2 & I1 & I2 & P1 & P2 & Hd).
    destruct (strictEq_two_codes c1 c2 f Hd) as [E|E].
    - exists k1, c1. repeat split; auto.
    - exists k2, c2. repeat split; auto. }
  revert Hne Htwo Hset.
  induction entries as [|[key code] rest IH]; intros Hne Htwo Hset st Hr.
  - destruct Htwo as (k1 & c1 & k2 & c2 & [] & _).
  - destruct (unset (fst st)) eqn:Uf.
    + (* the source is unset *)
      rewrite scanLoop_cons, Uf.
      assert (Hc : unset (Some (Str code)) = false)
        by (eapply nonEmptyCodes_In; [exact Hne|left; reflexivity]).
      assert (Hne' : nonEmptyCodes rest = true)
        by (simpl in Hne; apply andb_true_iff in Hne as [_ H]; exact H).
      destruct (includes q key) eqn:Hp.
      * destruct (unset (snd st)) eqn:Ut.
        -- apply (scanLoop_finds_target q rest Hne' _ (Str code));
             try reflexivity; try assumption.
           destruct Htwo as (k1 & c1 & k2 & c2 & I1 & I2 & P1 & P2 & Hd).
           assert (Hother : forall k c,
                      In (k, c) ((key, code) :: rest) ->
                      includes q k = true -> c <> code ->
                      exists k' c', In (k', c') rest /\
                                    includes q k' = true /\
                                    strictEq (Str c') (Str code) = false).
           { intros k c [Heq|Hin] Pk Hck.
             - injection Heq as -> ->. contradiction.
             - exists k, c. repeat split; auto.
               simpl. destruct (jseqb c code) eqn:E; [|reflexivity].
               apply jseqb_eq in E. contradiction. }
           destruct (list_eq_dec N.eq_dec c1 code) as [E1|E1].
           ++ apply (Hother k2 c2); auto. congruence.
           ++ apply (Hother k1 c1); auto.
        -- unfold resolved.
           rewrite scanLoop_keeps_source, scanLoop_keeps_target;
             cbn [fst snd]; try assumption.
           rewrite Hc, Ut. reflexivity.
      * apply IH; try assumption.
        -- destruct Htwo as (k1 & c1 & k2 & c2 & I1 & I2 & P1 & P2 & Hd).
           exists k1, c1, k2, c2.
           destruct I1 as [E1|I1];
             [injection E1 as -> ->; rewrite Hp in P1; discriminate|].
           destruct I2 as [E2|I2];
             [injection E2 as -> ->; rewrite Hp in P2; discriminate|].
           repeat split; assumption.
        -- intros st0 f Ef0 Uf0 Ut0.
           specialize (Hset st0 f Ef0 Uf0 Ut0).
           rewrite scanLoop_cons, Hp in Hset. exact Hset.
    + (* the source is set, so the target is not *)
      unfold resolved in Hr. rewrite Uf in Hr. cbn [negb andb] in Hr.
      apply negb_false_iff in Hr.
      destruct (fst st) as [f|] eqn:Ef; [|discriminate].
      apply (Hset st f); [exact Ef|rewrite Ef; exact Uf|exact Hr].
Qed.

Lemma scanLoop_target_origin q entries :
  forall st : slot * slot,
    unset (snd st) = true ->
    unset (snd (scanLoop q entries st)) = false ->
    exists key code,
      In (key, code) entries /\ includes q key = true /\
      snd (scanLoop q entries st) = Some (Str code) /\
      fst (scanLoop q entries st) <> Some (Str code).
Proof.
  induction entries as [|[key code] rest IH]; intros st Ut Hr.
  - simpl in Hr. congruence.
  - rewrite scanLoop_cons in *.
    assert (Hrest : forall st0 : slot * slot,
               unset (snd st0) = true ->
               unset (snd (scanLoop q rest st0)) = false ->
               exists k c,
                 In (k, c) ((key, code) :: rest) /\ includes q k = true /\
                 snd (scanLoop q rest st0) = Some (Str c) /\
                 fst (scanLoop q rest st0) <> Some (Str c)).
    { intros st0 U0 R0. destruct (IH st0 U0 R0) as (k & c & Hi & H).
      exists k, c. split; [right; exact Hi|exact H]. }
    destruct (includes q key) eqn:Hp; [|apply Hrest; assumption].
    destruct (unset (fst st)) eqn:Uf; [apply Hrest; assumption|].
    rewrite Ut in *. cbn [andb] in *.
    destruct (fst st) as [f|] eqn:Ef; [|discriminate].
    destruct (strictEq (Str code) f) eqn:E; cbn [negb] in *;
      [apply Hrest; assumption|].
    exists key, code. cbn [fst snd].
    split; [left; reflexivity|]. split; [exact Hp|].
    split; [reflexivity|].
    intros Heq. injection Heq as ->. simpl in E.
    rewrite jseqb_refl in E. discriminate.
Qed.

(** X2. Entered with both slots unset, the scan resolves both currencies
    exactly when the query contains the keys of two entries with
    different codes. *)
Theorem scan_resolves_iff_two_codes :
  forall (q : jsstring) (entries : table),
    nonEmptyCodes entries = true ->
    (resolved (scanLoop q entries (None, None)) = true
     <-> twoCodesPresent q entries).
Proof.
  intros q entries Hne. split.
  - intros Hr. unfold resolved in Hr.
    apply andb_true_iff in Hr as [Hf Ht].
    apply negb_true_iff in Hf, Ht.
    destruct (scanLoop_target_origin q entries (None, None) eq_refl Ht)
      as (k2 & c2 & I2 & P2 & E2 & D2).
    rewrite (scan_source_is_first_present q entries (None, None) Hne eq_refl)
      in D2, Hf.
    destruct (find (present q) entries) as [[k1 c1]|] eqn:F;
      [|discriminate].
    apply find_some in F as [I1 P1].
    exists k1, c1, k2, c2. repeat split; auto. congruence.
  - intros Htwo. apply scanLoop_completes; auto.
Qed.

(** "100 canadian dollar" names one currency, but the keys "dollar" and
    "canadian dollar" both occur in it and have different codes. *)
Lemma scan_resolves_iff_two_codes_witness :
  nonEmptyCodes Converter.currencyCodes = true
  /\ scanLoop (js "100 canadian dollar") Converter.currencyCodes (None, None)
     = (Some (Str (js "USD")), Some (Str (js "CAD")))
  /\ twoCodesPresent (js "100 canadian dollar") Converter.currencyCodes.
Proof.
  split; [vm_compute; reflexivity|].
  split; [vm_compute; reflexivity|].
  apply (scan_resolves_iff_two_codes (js "100 canadian dollar")
           Converter.currencyCodes); vm_compute; reflexivity.
Defined.

Lemma finish_of_resolved amount (st : slot * slot) :
  resolved st = true -> exists f t, finish amount st = Success amount f t.
Proof.
  unfold resolved. destruct st as [[f|] [t|]]; simpl; intros H;
    try discriminate.
  - apply andb_true_iff in H as [Hf Ht].
    rewrite negb_involutive in Hf, Ht. rewrite Hf, Ht. simpl. eauto.
  - rewrite andb_false_r in H. discriminate.
Qed.

Lemma scanPhase_completes codes q (st : slot * slot) :
  nonEmptyCodes codes = true -> twoCodesPresent q codes ->
  resolved (scanPhase codes q st) = true.
Proof.
  intros Hne Htwo. unfold scanPhase.
  destruct (unset (fst st) || unset (snd st)) eqn:E.
  - apply scanLoop_completes; try assumption.
    unfold resolved. apply orb_true_iff in E as [E|E]; rewrite E;
      simpl; rewrite ?andb_false_r; reflexivity.
  - apply orb_false_iff in E as [Ef Et]. unfold resolved.
    rewrite Ef, Et. reflexivity.
Qed.

(** X3. A query with an amount that contains, anywhere and in any order,
    the keys of two table entries with different codes is always
    extracted successfully, whatever the patterns made of it.  The keys
    are looked for as substrings, so one word can supply both: "dollars"
    contains "dollar" and "rs". *)
Theorem amount_and_two_codes_succeed :
  forall (lower : jsstring -> jsstring) (codes : table) (query : jsstring)
         (am : matchResult),
    nonEmptyCodes codes = true ->
    regexMatch (lower query) amountRegex = Some am ->
    twoCodesPresent (lower query) codes ->
    exists f t,
      extractCurrencyInfo lower codes query
      = Success (parseFloat (removeCommas (matched am))) f t.
Proof.
  intros lower codes query am Hne Ham Htwo.
  destruct (patternLoop_total lower codes (lower query) conversionPatterns
              conversionPatterns_capture (None, None)) as [st Hst].
  unfold extractCurrencyInfo. rewrite Ham, Hst.
  apply finish_of_resolved. apply scanPhase_completes; assumption.
Qed.

(** "100 dollars" names one currency and is extracted as USD to INR. *)
Lemma amount_and_two_codes_succeed_witness :
  twoCodesPresent (toLowerCase (js "100 dollars")) Converter.currencyCodes
  /\ Converter.extract (js "100 dollars")
     = Success (ofInt 100) (Str (js "USD")) (Str (js "INR")).
Proof.
  assert (Htwo : twoCodesPresent (toLowerCase (js "100 dollars"))
                                 Converter.currencyCodes).
  { exists (js "dollar"), (js "USD"), (js "rs"), (js "INR").
    split; [apply (nth_error_In _ 1); vm_compute; reflexivity|].
    split; [apply (nth_error_In _ 18); vm_compute; reflexivity|].
    split; [vm_compute; reflexivity|].
    split; [vm_compute; reflexivity|].
    intros H. apply (f_equal (fun l : jsstring => hd 0 l)) in H.
    vm_compute in H. discriminate. }
  split; [exact Htwo|].
  destruct (amount_and_two_codes_succeed toLowerCase Converter.currencyCodes
              (js "100 dollars")
              (MatchResult 0 (js "100") [(1%nat, js "100")]))
    as (f & t & H); [vm_compute; reflexivity|vm_compute; reflexivity
                    |exact Htwo|].
  vm_compute. reflexivity.
Defined.

(** ** The matcher only accepts texts of the pattern's language *)

Lemma slice_empty (s : jsstring) i : slice s i i = [].
Proof. unfold slice. rewrite Nat.sub_diag. reflexivity. Qed.

Lemma firstn_plus {A} (a b : nat) (l : list A) :
  firstn a l ++ firstn b (skipn a l) = firstn (a + b) l.
Proof.
  revert l. induction a as [|a IH]; intros l; [reflexivity|].
  destruct l as [|h l]; simpl.
  - rewrite firstn_nil. reflexivity.
  - rewrite IH. reflexivity.
Qed.

Lemma slice_app (s : jsstring) i j k :
  (i <= j)%nat -> (j <= k)%nat ->
  slice s i j ++ slice s j k = slice s i k.
Proof.
  intros Hij Hjk. unfold slice.
  replace (skipn j s) with (skipn (j - i) (skipn i s))
    by (rewrite skipn_skipn; f_equal; lia).
  rewrite firstn_plus. f_equal. lia.
Qed.

Lemma slice_one (s : jsstring) i ch :
  nth_error s i = Some ch -> slice s i (S i) = [ch].
Proof.
  intros H. unfold slice. replace (S i - i)%nat with 1%nat by lia.
  rewrite <- (Nat.add_0_r i) in H. rewrite <- nth_error_skipn in H.
  destruct (skipn i s); [discriminate|]. simpl in H. injection H as ->.
  reflexivity.
Qed.

Lemma In_slice (s : jsstring) i j c : In c (slice s i j) -> In c s.
Proof.
  unfold slice. intros H.
  rewrite <- (firstn_skipn i s). apply in_or_app. right.
  rewrite <- (firstn_skipn (j - i) (skipn i s)).
  apply in_or_app. left. exact H.
Qed.

Section Soundness.

Variable input : jsstring.

Lemma repeatMatcher_sound m gs (L : jsstring -> Prop) :
  sound input m L ->
  forall fuel min max,
    match max with Some n => (min <= n)%nat | None => True end ->
    sound input (repeatMatcher m gs fuel min max)
          (fun s => exists pieces,
               s = List.concat pieces /\ Forall L pieces /\
               withinBounds min max (List.length pieces)).
Proof.
  intros Hm.
  assert (Hnone : forall min max (x : mstate) (c : cont) z,
             match max with Some n => (min <= n)%nat | None => True end ->
             (min = 0%nat \/ max = Some 0%nat) ->
             c x = Some z ->
             exists y, c y = Some z /\ (endIndex x <= endIndex y)%nat /\
               exists pieces,
                 slice input (endIndex x) (endIndex y) = List.concat pieces /\
                 Forall L pieces /\
                 withinBounds min max (List.length pieces)).
  { intros min max x c z Hwf H0 Hc. exists x. split; [exact Hc|].
    split; [lia|]. exists []. rewrite slice_empty.
    split; [reflexivity|]. split; [constructor|].
    unfold withinBounds. simpl. destruct H0 as [->| ->].
    - split; [lia|]. destruct max; [lia|exact I].
    - split; lia. }
  induction fuel as [|fuel IH]; intros min max Hwf x c z H.
  - simpl in H. destruct max as [[|n]|].
    + apply Hnone; auto.
    + destruct min; [apply Hnone; auto|discriminate].
    + destruct min; [apply Hnone; auto|discriminate].
  - rewrite repeatMatcher_unfold in H.
    assert (Hstep :
              m (clearGroups gs x)
                (fun y =>
                   if Nat.eqb min 0 && Nat.eqb (endIndex y) (endIndex x)
                   then None
                   else repeatMatcher m gs fuel (Nat.pred min)
                                      (option_map Nat.pred max) y c)
              = Some z ->
              max <> Some 0%nat ->
              exists y, c y = Some z /\ (endIndex x <= endIndex y)%nat /\
                exists pieces,
                  slice input (endIndex x) (endIndex y) = List.concat pieces /\
                  Forall L pieces /\
                  withinBounds min max (List.length pieces)).
    { intros Hr Hmax. apply Hm in Hr as (y1 & Hd & Le1 & L1).
      simpl in Le1, L1.
      destruct (Nat.eqb min 0 && Nat.eqb (endIndex y1) (endIndex x));
        [discriminate|].
      apply IH in Hd as (y2 & Hc & Le2 & pieces & Hs & Hall & Hb).
      - exists y2. split; [exact Hc|]. split; [lia|].
        exists (slice input (endIndex x) (endIndex y1) :: pieces).
        split; [|split].
        + simpl. rewrite <- Hs. symmetry. apply slice_app; assumption.
        + constructor; assumption.
        + unfold withinBounds in *. simpl. destruct Hb as [B1 B2].
          split; [lia|].
          destruct max as [[|n]|]; simpl in *;
            [congruence|lia|exact I].
      - destruct max as [[|n]|]; simpl in *; [congruence|lia|exact I]. }
    destruct max as [[|n]|].
    + apply Hnone; auto.
    + destruct min.
      * match type of H with
        | match ?t with _ => _ end = _ => destruct t eqn:E
        end.
        -- injection H as H. subst. apply Hstep; [reflexivity|discriminate].
        -- apply Hnone; auto.
      * apply Hstep; [exact H|discriminate].
    + destruct min.
      * match type of H with
        | match ?t with _ => _ end = _ => destruct t eqn:E
        end.
        -- injection H as H. subst. apply Hstep; [reflexivity|discriminate].
        -- apply Hnone; auto.
      * apply Hstep; [exact H|discriminate].
Qed.

Lemma matcher_sound r :
  wellFormed r = true -> sound input (matcher input r) (lang r).
Proof.
  induction r; intros Hwf x c z H; simpl in H, Hwf.
  - exists x. split; [exact H|]. split; [lia|]. apply slice_empty.
  - destruct (nth_error input (endIndex x)) as [ch|] eqn:E; [|discriminate].
    destruct (p ch) eqn:P; [|discriminate].
    eexists. split; [exact H|]. simpl. split; [lia|].
    exists ch. split; [apply slice_one; exact E|exact P].
  - apply andb_true_iff in Hwf as [W1 W2].
    apply (IHr1 W1) in H as (y1 & H1 & Le1 & L1).
    apply (IHr2 W2) in H1 as (y2 & H2 & Le2 & L2).
    exists y2. split; [exact H2|]. split; [lia|]. simpl.
    exists (slice input (endIndex x) (endIndex y1)),
           (slice input (endIndex y1) (endIndex y2)).
    split; [symmetry; apply slice_app; assumption|]. split; assumption.
  - apply andb_true_iff in Hwf as [W1 W2].
    destruct (matcher input r1 x c) eqn:E.
    + injection H as <-. apply (IHr1 W1) in E as (y & Hc & Le & Ly).
      exists y. split; [exact Hc|]. split; [lia|]. left. exact Ly.
    + apply (IHr2 W2) in H as (y & Hc & Le & Ly).
      exists y. split; [exact Hc|]. split; [lia|]. right. exact Ly.
  - apply andb_true_iff in Hwf as [Wb W1].
    eapply (repeatMatcher_sound _ _ (lang r) (IHr W1)) in H.
    + exact H.
    + destruct max; [apply Nat.leb_le; exact Wb|exact I].
  - apply (IHr Hwf) in H as (y & Hc & Le & Ly).
    eexists. split; [exact Hc|]. simpl. split; [lia|exact Ly].
  - destruct (atBoundary input (endIndex x)); [|discriminate].
    exists x. split; [exact H|]. split; [lia|]. apply slice_empty.
Qed.

Lemma searchFrom_sound r :
  wellFormed r = true ->
  forall fuel i j y,
    searchFrom input r fuel i = Some (j, y) ->
    (j <= endIndex y)%nat /\ lang r (slice input j (endIndex y)).
Proof.
  intros Hwf. induction fuel as [|fuel IH]; intros i j y H; simpl in H.
  - destruct (matcher input r (MState i []) (fun y => Some y)) eqn:E;
      [|discriminate].
    injection H as <- <-. apply (matcher_sound r Hwf) in E as (y' & Hy & P).
    injection Hy as ->. exact P.
  - destruct (matcher input r (MState i []) (fun y => Some y)) eqn:E.
    + injection H as <- <-.
      apply (matcher_sound r Hwf) in E as (y' & Hy & P).
      injection Hy as ->. exact P.
    + eapply IH. exact H.
Qed.

End Soundness.

Lemma regexMatch_lang q r m :
  wellFormed r = true -> regexMatch q r = Some m ->
  lang r (matched m) /\
  exists j, (index m <= j)%nat /\ matched m = slice q (index m) j.
Proof.
  intros Hwf H. unfold regexMatch in H.
  destruct (searchFrom q r (List.length q) 0) as [[i y]|] eqn:E;
    [|discriminate].
  injection H as <-. simpl.
  apply (searchFrom_sound q r Hwf) in E as [Le Ly].
  split; [exact Ly|]. exists (endIndex y). split; [exact Le|reflexivity].
Qed.

Lemma lang_chars r s : lang r s -> forallb (charsOf r) s = true.
Proof.
  revert s. induction r; intros s H; simpl in H.
  - subst. reflexivity.
  - destruct H as (ch & -> & P). simpl. rewrite P. reflexivity.
  - destruct H as (s1 & s2 & -> & H1 & H2). rewrite forallb_app.
    apply IHr1 in H1. apply IHr2 in H2. apply andb_true_iff. split.
    + eapply forallb_forall. intros ch Hin.
      rewrite forallb_forall in H1. simpl. rewrite (H1 _ Hin). reflexivity.
    + eapply forallb_forall. intros ch Hin.
      rewrite forallb_forall in H2. simpl. rewrite (H2 _ Hin).
      apply orb_true_r.
  - destruct H as [H|H].
    + apply IHr1 in H. eapply forallb_forall. intros ch Hin.
      rewrite forallb_forall in H. simpl. rewrite (H _ Hin). reflexivity.
    + apply IHr2 in H. eapply forallb_forall. intros ch Hin.
      rewrite forallb_forall in H. simpl. rewrite (H _ Hin).
      apply orb_true_r.
  - destruct H as (pieces & -> & Hall & _).
    apply forallb_forall. intros ch Hin. simpl.
    apply in_concat in Hin as (piece & Hp & Hin).
    rewrite Forall_forall in Hall. specialize (IHr _ (Hall _ Hp)).
    rewrite forallb_forall in IHr. apply IHr. exact Hin.
  - simpl. apply IHr. exact H.
  - subst. reflexivity.
Qed.

Lemma lang_first r s :
  lang r s ->
  match s with
  | [] => nullable r = true
  | ch :: _ => firstOf r ch = true
  end.
Proof.
  revert s. induction r; intros s H; simpl in H.
  - subst. reflexivity.
  - destruct H as (ch & -> & P). exact P.
  - destruct H as (s1 & s2 & -> & H1 & H2).
    apply IHr1 in H1. apply IHr2 in H2. simpl.
    destruct s1 as [|a s1]; simpl.
    + destruct s2 as [|b s2]; rewrite H1, H2; simpl;
        [reflexivity|apply orb_true_r].
    + rewrite H1. reflexivity.
  - destruct H as [H|H].
    + apply IHr1 in H. destruct s; simpl; rewrite H; reflexivity.
    + apply IHr2 in H. destruct s; simpl; rewrite H; apply orb_true_r.
  - destruct H as (pieces & -> & Hall & [Hmin _]). simpl.
    destruct (List.concat pieces) as [|ch tl] eqn:E.
    + destruct Hall as [|piece rest Hp _].
      * simpl in Hmin. assert (min = 0%nat) by lia. subst. reflexivity.
      * simpl in E. apply app_eq_nil in E as [-> _].
        apply IHr in Hp. rewrite Hp. apply orb_true_r.
    + clear Hmin. revert ch tl E.
      induction Hall as [|piece rest Hp _ IHrest]; intros ch tl E;
        [discriminate|].
      simpl in E. destruct piece as [|a piece].
      * simpl in E. apply (IHrest ch tl E).
      * apply IHr in Hp. simpl in E. injection E as -> _. exact Hp.
  - apply IHr. exact H.
  - subst. reflexivity.
Qed.

(** ** The amount *)

Lemma firstOf_amountRegex d : firstOf amountRegex d = true -> isDigit d = true.
Proof.
  unfold amountRegex, cats, Star, Plus, Opt, d_. simpl.
  destruct (isDigit d); [reflexivity|]. simpl. intros H. exact H.
Qed.

Lemma charsOf_amountRegex c :
  charsOf amountRegex c = true -> amountChar c = true.
Proof.
  unfold amountRegex, cats, Star, Plus, Opt, d_, Lit, amountChar. simpl.
  change (isLower 44) with false. change (isUpper 44) with false.
  change (isLower 46) with false. change (isUpper 46) with false.
  destruct (isDigit c); [reflexivity|].
  destruct (c =? 44); [reflexivity|].
  destruct (c =? 46); [reflexivity|]. simpl. intros H. exact H.
Qed.

(** X4. Whatever the query, the text the amount pattern picks out of it
    starts with a digit and holds nothing but digits, commas and points,
    and it is a run of the query starting at the match index: no sign, no
    exponent and no letter can be part of an amount. *)
Theorem amount_text_shape :
  forall (q : jsstring) (am : matchResult),
    regexMatch q amountRegex = Some am ->
    exists d rest,
      matched am = d :: rest /\ isDigit d = true /\
      forallb amountChar rest = true /\
      exists j, matched am = slice q (index am) j.
Proof.
  intros q am H.
  destruct (regexMatch_lang q amountRegex am eq_refl H) as [L (j & _ & Hs)].
  pose proof (lang_first _ _ L) as F.
  pose proof (lang_chars _ _ L) as C.
  destruct (matched am) as [|d rest] eqn:E.
  - discriminate F.
  - exists d, rest. split; [reflexivity|].
    split; [apply firstOf_amountRegex; exact F|].
    split; [|exists j; exact Hs].
    simpl in C. apply andb_true_iff in C as [_ C].
    apply forallb_forall. intros c Hin. rewrite forallb_forall in C.
    apply charsOf_amountRegex. apply C. exact Hin.
Qed.

(** In "send -1,250.75 usd to eur" the amount text is "1,250.75", without
    the sign. *)
Lemma amount_text_shape_witness :
  regexMatch (js "send -1,250.75 usd to eur") amountRegex
  = Some (MatchResult 6 (js "1,250.75")
            [(1%nat, js "1,250.75"); (3%nat, js ".75"); (2%nat, js ",250")])
  /\ exists d rest,
       js "1,250.75" = d :: rest /\ isDigit d = true /\
       forallb amountChar rest = true.
Proof.
  assert (H : regexMatch (js "send -1,250.75 usd to eur") amountRegex
              = Some (MatchResult 6 (js "1,250.75")
                        [(1%nat, js "1,250.75"); (3%nat, js ".75");
                         (2%nat, js ",250")]))
    by (vm_compute; reflexivity).
  split; [exact H|].
  destruct (amount_text_shape _ _ H) as (d & rest & E & D & C & _).
  exists d, rest. auto.
Defined.

Lemma finite_nonNegative m e : nonNegative (finite false m e) = true.
Proof.
  unfold finite. destruct m as [|p]; [reflexivity|].
  destruct (oddPart p). reflexivity.
Qed.

Lemma roundRatio_nonNegative a b : nonNegative (roundRatio false a b) = true.
Proof.
  unfold roundRatio. destruct (a =? 0); [reflexivity|]. cbv zeta.
  match goal with
  | |- context [if ?b then Infinity false else _] => destruct b
  end; [reflexivity|apply finite_nonNegative].
Qed.

Lemma ofDecimal_nonNegative c x : nonNegative (ofDecimal false c x) = true.
Proof.
  unfold ofDecimal. destruct (x <? 0)%Z; apply roundRatio_nonNegative.
Qed.

Lemma parseFloat_digit_first d rest :
  isDigit d = true -> nonNegative (parseFloat (d :: rest)) = true.
Proof.
  intros Hd. unfold parseFloat. simpl. rewrite Hd.
  destruct (takeDigits rest) as [ds tl].
  apply ofDecimal_nonNegative.
Qed.

Lemma digit_not_comma d : isDigit d = true -> negb (d =? 44) = true.
Proof.
  unfold isDigit, inRange. intros H. apply andb_true_iff in H as [H _].
  apply N.leb_le in H. apply negb_true_iff. apply N.eqb_neq. lia.
Qed.

Lemma amount_nonNegative q am :
  regexMatch q amountRegex = Some am ->
  nonNegative (parseFloat (removeCommas (matched am))) = true.
Proof.
  intros H.
  destruct (regexMatch_lang q amountRegex am eq_refl H) as [L _].
  pose proof (lang_first _ _ L) as F.
  destruct (matched am) as [|d rest]; [discriminate F|].
  apply firstOf_amountRegex in F.
  unfold removeCommas. simpl. rewrite (digit_not_comma d F).
  apply parseFloat_digit_first. exact F.
Qed.

(** X5. The amount of a successful extraction is never NaN and never
    negative: it is zero, a positive finite number or Infinity.  A minus
    sign before the digits is not part of the amount. *)
Theorem success_amount_nonnegative :
  forall (lower : jsstring -> jsstring) (codes : table) (query : jsstring)
         (amount : number) (f t : value),
    extractCurrencyInfo lower codes query = Success amount f t ->
    nonNegative amount = true.
Proof.
  intros lower codes query amount f t H. unfold extractCurrencyInfo in H.
  destruct (regexMatch (lower query) amountRegex) as [am|] eqn:Ham;
    [|discriminate].
  destruct (patternLoop lower codes (lower query) conversionPatterns
              (None, None)) as [st|]; [|discriminate].
  destruct (finish_cases (parseFloat (removeCommas (matched am)))
              (scanPhase codes (lower query) st)) as [F|(f' & t' & F)];
    rewrite F in H; [discriminate|].
  injection H as <- _ _. eapply amount_nonNegative. exact Ham.
Qed.

(** "-5 usd to eur" is extracted with the amount 5. *)
Lemma success_amount_nonnegative_witness :
  Converter.extract (js "-5 usd to eur")
  = Success (ofInt 5) (Str (js "USD")) (Str (js "EUR"))
  /\ nonNegative (ofInt 5) = true.
Proof.
  assert (H : Converter.extract (js "-5 usd to eur")
              = Success (ofInt 5) (Str (js "USD")) (Str (js "EUR")))
    by (vm_compute; reflexivity).
  split; [exact H|].
  exact (success_amount_nonnegative toLowerCase Converter.currencyCodes
           (js "-5 usd to eur") _ _ _ H).
Defined.

(** X6. A query without any digit always fails with the "no amount"
    message, whatever else it contains. *)
Theorem no_digit_no_amount :
  forall (lower : jsstring -> jsstring) (codes : table) (query : jsstring),
    forallb (fun c => negb (isDigit c)) (lower query) = true ->
    extractCurrencyInfo lower codes query
    = Failure
        (js "Couldn't identify an amount in your query. Please specify an amount to convert.").
Proof.
  intros lower codes query Hno. unfold extractCurrencyInfo.
  destruct (regexMatch (lower query) amountRegex) as [am|] eqn:Ham;
    [|reflexivity].
  exfalso.
  destruct (regexMatch_lang (lower query) amountRegex am eq_refl Ham)
    as [L (j & _ & Hs)].
  pose proof (lang_first _ _ L) as F.
  destruct (matched am) as [|d rest] eqn:E; [discriminate F|].
  apply firstOf_amountRegex in F.
  assert (Hin : In d (lower query)).
  { apply (In_slice _ (index am) j). rewrite <- Hs. left. reflexivity. }
  rewrite forallb_forall in Hno. specialize (Hno d Hin).
  rewrite F in Hno. discriminate.
Qed.

(** "Half a dollar to euros" has no digit. *)
Lemma no_digit_no_amount_witness :
  forallb (fun c => negb (isDigit c))
          (toLowerCase (js "Half a dollar to euros")) = true
  /\ Converter.extract (js "Half a dollar to euros")
     = Failure
         (js "Couldn't identify an amount in your query. Please specify an amount to convert.").
Proof.
  split; [vm_compute; reflexivity|].
  apply (no_digit_no_amount toLowerCase Converter.currencyCodes
           (js "Half a dollar to euros")).
  vm_compute. reflexivity.
Defined.

(** ** The two revisions of the alias table *)

Lemma startsWith_In s key :
  startsWith s key = true -> forall c, In c key -> In c s.
Proof.
  revert s. induction key as [|k key IH]; intros s H c Hin; [destruct Hin|].
  destruct s as [|a s]; [discriminate|]. simpl in H.
  apply andb_true_iff in H as [Hk Hs]. apply N.eqb_eq in Hk. subst a.
  destruct Hin as [->|Hin]; [left; reflexivity|].
  right. eapply IH; eassumption.
Qed.

Lemma includes_In s key :
  includes s key = true -> forall c, In c key -> In c s.
Proof.
  induction s as [|a s IH]; intros H c Hin.
  - simpl in H. rewrite orb_false_r in H.
    eapply startsWith_In; eassumption.
  - simpl in H. apply orb_true_iff in H as [H|H].
    + eapply startsWith_In; eassumption.
    + right. apply IH; assumption.
Qed.

Lemma noYen_In s : noYen s = true -> ~ In 165 s.
Proof.
  unfold noYen. rewrite forallb_forall. intros H Hin.
  specialize (H _ Hin). discriminate.
Qed.

Lemma noYen_slice s i j : noYen s = true -> noYen (slice s i j) = true.
Proof.
  unfold noYen. rewrite !forallb_forall. intros H c Hin.
  apply H. eapply In_slice. exact Hin.
Qed.

Lemma noYen_absent q key :
  noYen q = true -> In 165 key -> includes q key = false.
Proof.
  intros Hq Hk. destruct (includes q key) eqn:E; [|reflexivity].
  exfalso. apply (noYen_In q Hq). eapply includes_In; eassumption.
Qed.

Lemma present_yen q (e : jsstring * jsstring) :
  noYen q = true -> In 165 (fst e) -> present q e = false.
Proof.
  destruct e as [key code]. apply noYen_absent.
Qed.

Lemma noYen_not_key tok key :
  noYen tok = true -> In 165 key -> jseqb tok key = false.
Proof.
  intros Ht Hk. destruct (jseqb tok key) eqn:E; [|reflexivity].
  apply jseqb_eq in E. subst. exfalso. exact (noYen_In key Ht Hk).
Qed.

Lemma ownProp_app o1 o2 k :
  ownProp (o1 ++ o2) k
  = match ownProp o1 k with
    | Some v => Some v
    | None => ownProp o2 k
    end.
Proof.
  induction o1 as [|[k' v] o1 IH]; simpl; [reflexivity|].
  destruct (jseqb k k'); [reflexivity|exact IH].
Qed.

(** The scan only depends on the entries whose key occurs in the query. *)
Lemma scanLoop_filter q entries :
  forall st : slot * slot,
    scanLoop q entries st = scanLoop q (filter (present q) entries) st.
Proof.
  induction entries as [|[key code] rest IH]; intros st; [reflexivity|].
  rewrite scanLoop_cons. cbn [filter].
  change (present q (key, code)) with (includes q key).
  destruct (includes q key) eqn:E; [|apply IH].
  rewrite scanLoop_cons, E, !IH. reflexivity.
Qed.

Lemma group_is_slice q p m k g :
  regexMatch q p = Some m -> group k (groups m) = Some g ->
  exists i j, g = slice q i j.
Proof.
  unfold regexMatch.
  destruct (searchFrom q p (List.length q) 0) as [[i y]|]; [|discriminate].
  intros H. injection H as <-. simpl. rewrite group_captures.
  destruct (captureOf k (captures y)) as [[a b]|]; [|discriminate].
  simpl. intros H. injection H as <-. eauto.
Qed.

Section YenKeys.

Variable lower : jsstring -> jsstring.
Hypothesis lower_noYen : forall s, noYen s = true -> noYen (lower s) = true.

(** Two tables that differ only in entries whose keys hold a yen sign. *)
Variables (before after : table) (e1 e2 e3 : jsstring * jsstring).
Hypothesis yen1 : In 165 (fst e1).
Hypothesis yen2 : In 165 (fst e2).
Hypothesis yen3 : In 165 (fst e3).

Let first := before ++ e1 :: after.
Let later := before ++ e2 :: after ++ [e3].

Lemma ownProp_yenless tok :
  noYen tok = true -> ownProp first tok = ownProp later tok.
Proof.
  intros Ht. unfold first, later. rewrite !ownProp_app.
  destruct (ownProp before tok); [reflexivity|].
  destruct e1 as [k1 v1], e2 as [k2 v2], e3 as [k3 v3]. simpl in *.
  rewrite (noYen_not_key tok k1 Ht yen1), (noYen_not_key tok k2 Ht yen2).
  rewrite ownProp_app. simpl.
  rewrite (noYen_not_key tok k3 Ht yen3).
  destruct (ownProp after tok); reflexivity.
Qed.

Lemma assignIfKnown_yenless tok x :
  noYen tok = true -> assignIfKnown first tok x = assignIfKnown later tok x.
Proof.
  intros Ht. unfold assignIfKnown, getProp.
  rewrite (ownProp_yenless tok Ht). reflexivity.
Qed.

Lemma patternLoop_yenless q ps :
  noYen q = true ->
  forall st, patternLoop lower first q ps st = patternLoop lower later q ps st.
Proof.
  intros Hq. induction ps as [|p ps IH]; intros st; [reflexivity|].
  simpl. destruct (regexMatch q p) as [m|] eqn:E; [|apply IH].
  assert (Hon : onMatch lower first m st = onMatch lower later m st).
  { unfold onMatch.
    destruct (group 1 (groups m)) as [g1|] eqn:G1; [|reflexivity].
    destruct (group 2 (groups m)) as [g2|] eqn:G2; [|reflexivity].
    destruct (group_is_slice q p m 1 g1 E G1) as (i1 & j1 & ->).
    destruct (group_is_slice q p m 2 g2 E G2) as (i2 & j2 & ->).
    rewrite !assignIfKnown_yenless;
      [reflexivity|apply lower_noYen, noYen_slice, Hq
      |apply lower_noYen, noYen_slice, Hq]. }
  rewrite Hon. destruct (onMatch lower later m st) as [st'|]; [|reflexivity].
  rewrite IH. reflexivity.
Qed.

Lemma scanPhase_yenless q st :
  noYen q = true -> scanPhase first q st = scanPhase later q st.
Proof.
  intros Hq. unfold scanPhase.
  destruct (unset (fst st) || unset (snd st)); [|reflexivity].
  rewrite (scanLoop_filter q first), (scanLoop_filter q later).
  f_equal. unfold first, later. rewrite !filter_app. cbn [filter].
  rewrite !filter_app. cbn [filter].
  rewrite (present_yen q e1 Hq yen1), (present_yen q e2 Hq yen2),
    (present_yen q e3 Hq yen3).
  rewrite app_nil_r. reflexivity.
Qed.

Lemma extract_yenless query :
  noYen query = true ->
  extractCurrencyInfo lower first query
  = extractCurrencyInfo lower later query.
Proof.
  intros Hq. pose proof (lower_noYen query Hq) as Hl.
  unfold extractCurrencyInfo.
  destruct (regexMatch (lower query) amountRegex); [|reflexivity].
  rewrite (patternLoop_yenless (lower query) conversionPatterns Hl).
  destruct (patternLoop lower later (lower query) conversionPatterns
              (None, None)); [|reflexivity].
  rewrite (scanPhase_yenless (lower query) _ Hl). reflexivity.
Qed.

End YenKeys.

Lemma toLowerCase_noYen s : noYen s = true -> noYen (toLowerCase s) = true.
Proof.
  unfold noYen, toLowerCase. rewrite !forallb_forall. intros H c Hin.
  apply in_map_iff in Hin as (c0 & <- & Hin). specialize (H _ Hin).
  unfold lowerUnit. destruct (isUpper c0) eqn:U; [|exact H].
  unfold isUpper, inRange in U. apply andb_true_iff in U as [_ U].
  apply N.leb_le in U. apply negb_true_iff. apply N.eqb_neq. lia.
Qed.

(** X7. The two revisions of the extractor return the same result for
    every query without a yen sign, under any lowercasing that does not
    produce one: their alias tables differ only in the keys that hold that
    sign. *)
Theorem revisions_agree_without_yen :
  forall lower : jsstring -> jsstring,
    (forall s, noYen s = true -> noYen (lower s) = true) ->
    forall query,
      noYen query = true ->
      extractCurrencyInfo lower Converter.currencyCodes query
      = extractCurrencyInfo lower ConverterForm.currencyCodes query.
Proof.
  intros lower Hl query Hq.
  assert (E1 : Converter.currencyCodes
               = firstn 14 Converter.currencyCodes
                   ++ (js "¥", js "CNY") :: skipn 15 Converter.currencyCodes)
    by (vm_compute; reflexivity).
  assert (E2 : ConverterForm.currencyCodes
               = firstn 14 Converter.currencyCodes
                   ++ (js "¥jpy", js "JPY")
                   :: skipn 15 Converter.currencyCodes
                   ++ [(js "¥cny", js "CNY")])
    by (vm_compute; reflexivity).
  rewrite E1 at 1. rewrite E2.
  apply (extract_yenless lower Hl); try assumption;
    vm_compute; tauto.
Qed.

(** Under the ASCII lowercasing the revisions agree on
    "Exchange 50 EUR to GBP"; on "5 ¥ usd" they do not. *)
Lemma revisions_agree_without_yen_witness :
  Converter.extract (js "Exchange 50 EUR to GBP")
  = ConverterForm.extract (js "Exchange 50 EUR to GBP")
  /\ Converter.extract (js "5 ¥ usd") <> ConverterForm.extract (js "5 ¥ usd").
Proof.
  split.
  - apply (revisions_agree_without_yen toLowerCase toLowerCase_noYen
             (js "Exchange 50 EUR to GBP")).
    vm_compute. reflexivity.
  - vm_compute. discriminate.
Defined.

(** ** Where the currencies of a result come from *)

Lemma ownProp_In_pair o k v : ownProp o k = Some v -> In (k, v) o.
Proof.
  induction o as [|[k' v'] o IH]; simpl; [discriminate|].
  destruct (jseqb k k') eqn:E.
  - intros H. injection H as ->. apply jseqb_eq in E. subst k'.
    left. reflexivity.
  - intros H. right. auto.
Qed.

Lemma startsWith_firstn (s : jsstring) n : startsWith s (firstn n s) = true.
Proof.
  revert s. induction n as [|n IH]; intros [|a s]; simpl; try reflexivity.
  rewrite N.eqb_refl. apply IH.
Qed.

Lemma includes_startsWith s key :
  startsWith s key = true -> includes s key = true.
Proof. intros H. destruct s; cbn [includes]; rewrite H; reflexivity. Qed.

Lemma includes_skipn q key i :
  includes (skipn i q) key = true -> includes q key = true.
Proof.
  revert q. induction i as [|i IH]; intros [|a q] H; try exact H.
  simpl in H. simpl. rewrite (IH q H). apply orb_true_r.
Qed.

Lemma includes_slice q i j : includes q (slice q i j) = true.
Proof.
  unfold slice. apply (includes_skipn q _ i).
  apply includes_startsWith, startsWith_firstn.
Qed.

Lemma assignIfKnown_backed codes q tok x :
  includes q tok = true ->
  backed codes q x -> backed codes q (assignIfKnown codes tok x).
Proof.
  intros Hi H. unfold assignIfKnown, getProp.
  destruct (ownProp codes tok) as [v|] eqn:E.
  - destruct (truthy (Str v)); [|exact H].
    exists tok. split; [exact Hi|apply ownProp_In_pair; exact E].
  - destruct (inherited tok) as [v|] eqn:I; [|exact H].
    destruct (truthy v); [|exact H].
    exists tok. split; [exact Hi|].
    destruct v as [s| |]; [|exact I|exact I].
    exfalso. eapply inherited_not_Str. exact I.
Qed.

Lemma patternLoop_backed lower codes q ps :
  (forall i j, lower (slice q i j) = slice q i j) ->
  forall st st',
    patternLoop lower codes q ps st = Ok st' ->
    backed codes q (fst st) -> backed codes q (snd st) ->
    backed codes q (fst st') /\ backed codes q (snd st').
Proof.
  intros Hl. induction ps as [|p l IH]; intros st st' H Hf Ht; simpl in H.
  - injection H as <-. auto.
  - destruct (regexMatch q p) as [m|] eqn:E; [|eapply IH; eauto].
    unfold onMatch in H.
    destruct (group 1 (groups m)) as [g1|] eqn:G1; [|discriminate].
    destruct (group 2 (groups m)) as [g2|] eqn:G2; [|discriminate].
    destruct (group_is_slice q p m 1 g1 E G1) as (i1 & j1 & ->).
    destruct (group_is_slice q p m 2 g2 E G2) as (i2 & j2 & ->).
    rewrite !Hl in H. cbn [fst snd] in H.
    pose proof (assignIfKnown_backed codes q _ _ (includes_slice q i1 j1) Hf)
      as Kf.
    pose proof (assignIfKnown_backed codes q _ _ (includes_slice q i2 j2) Ht)
      as Kt.
    destruct (negb (unset (assignIfKnown codes (slice q i1 j1) (fst st)))
              && negb (unset (assignIfKnown codes (slice q i2 j2) (snd st)))).
    + injection H as <-. auto.
    + eapply IH; eauto.
Qed.

Lemma scanLoop_backed codes q entries :
  incl entries codes ->
  forall st : slot * slot,
    backed codes q (fst st) -> backed codes q (snd st) ->
    backed codes q (fst (scanLoop q entries st)) /\
    backed codes q (snd (scanLoop q entries st)).
Proof.
  induction entries as [|[key code] rest IH]; intros Hincl st Hf Ht.
  - auto.
  - assert (Hc : In (key, code) codes) by (apply Hincl; left; reflexivity).
    assert (Hr : incl rest codes)
      by (intros x Hx; apply Hincl; right; exact Hx).
    rewrite scanLoop_cons.
    destruct (includes q key) eqn:Ei; [|apply IH; auto].
    assert (Hb : backed codes q (Some (Str code)))
      by (exists key; split; assumption).
    destruct (unset (fst st)); [apply IH; auto|].
    match goal with
    | |- context [if ?b then _ else _] => destruct b
    end; [auto|apply IH; auto].
Qed.

Lemma success_backed lower codes query amount f t :
  (forall i j, lower (slice (lower query) i j) = slice (lower query) i j) ->
  extractCurrencyInfo lower codes query = Success amount f t ->
  backed codes (lower query) (Some f) /\ backed codes (lower query) (Some t).
Proof.
  intros Hl. unfold extractCurrencyInfo.
  destruct (regexMatch (lower query) amountRegex) as [am|]; [|discriminate].
  destruct (patternLoop lower codes (lower query) conversionPatterns
              (None, None)) as [st|] eqn:E; [|discriminate].
  apply (patternLoop_backed lower codes (lower query) _ Hl) in E as [Hf Ht];
    simpl; auto.
  assert (Hs : backed codes (lower query)
                 (fst (scanPhase codes (lower query) st)) /\
               backed codes (lower query)
                 (snd (scanPhase codes (lower query) st))).
  { unfold scanPhase. destruct (unset (fst st) || unset (snd st)); auto.
    apply scanLoop_backed; auto. apply incl_refl. }
  destruct (scanPhase codes (lower query) st) as [[f'|] [t'|]];
    simpl; try discriminate.
  destruct (negb (truthy f') || negb (truthy t')); [discriminate|].
  intros H. injection H as _ <- <-. exact Hs.
Qed.

Lemma toLowerCase_idempotent s : toLowerCase (toLowerCase s) = toLowerCase s.
Proof.
  unfold toLowerCase. rewrite map_map. apply map_ext. intros c.
  unfold lowerUnit. destruct (isUpper c) eqn:U; [|rewrite U; reflexivity].
  assert (H : isUpper (c + 32) = false); [|rewrite H; reflexivity].
  unfold isUpper, inRange in *. apply andb_true_iff in U as [U _].
  apply N.leb_le in U. apply andb_false_iff. right. apply N.leb_gt. lia.
Qed.

Lemma toLowerCase_slice s i j :
  toLowerCase (slice (toLowerCase s) i j) = slice (toLowerCase s) i j.
Proof.
  unfold slice. change (map lowerUnit s) with (toLowerCase s).
  unfold toLowerCase at 2 3. rewrite skipn_map, firstn_map.
  apply toLowerCase_idempotent.
Qed.

(** X8. When lowercasing leaves the parts of the lowercased query as they
    are, each of the two currencies of a successful extraction comes
    from the lowercased query: a code is the code of an alias whose key
    occurs in it, and a value that is no code is the member of
    [Object.prototype] that a run of the query names. *)
Theorem success_codes_are_backed :
  forall (lower : jsstring -> jsstring) (codes : table)
         (query : jsstring) (amount : number) (f t : value),
    (forall i j, lower (slice (lower query) i j) = slice (lower query) i j) ->
    extractCurrencyInfo lower codes query = Success amount f t ->
    (exists key,
        includes (lower query) key = true /\
        match f with
        | Str s => In (key, s) codes
        | _ => inherited key = Some f
        end) /\
    (exists key,
        includes (lower query) key = true /\
        match t with
        | Str s => In (key, s) codes
        | _ => inherited key = Some t
        end).
Proof.
  intros lower codes query amount f t Hl H.
  destruct (success_backed lower codes query amount f t Hl H) as [Hf Ht].
  split; [exact Hf|exact Ht].
Qed.

(** "Convert 5 Pounds to Yen" gives GBP and JPY, each with an alias in
    the lowercased text; "100 constructor to usd" gives the function
    [Object], named by a word of the query, and USD. *)
Lemma success_codes_are_backed_witness :
  ((exists key, includes (toLowerCase (js "Convert 5 Pounds to Yen")) key
                = true /\ In (key, js "GBP") Converter.currencyCodes) /\
   (exists key, includes (toLowerCase (js "Convert 5 Pounds to Yen")) key
                = true /\ In (key, js "JPY") Converter.currencyCodes)) /\
  ((exists key, includes (toLowerCase (js "100 constructor to usd")) key
                = true /\ inherited key = Some (Builtin (js "Object"))) /\
   (exists key, includes (toLowerCase (js "100 constructor to usd")) key
                = true /\ In (key, js "USD") Converter.currencyCodes)).
Proof.
  split.
  - apply (success_codes_are_backed toLowerCase Converter.currencyCodes
             (js "Convert 5 Pounds to Yen") (ofInt 5)
             (Str (js "GBP")) (Str (js "JPY"))).
    + intros i j. apply toLowerCase_slice.
    + vm_compute. reflexivity.
  - apply (success_codes_are_backed toLowerCase Converter.currencyCodes
             (js "100 constructor to usd") (ofInt 100)
             (Builtin (js "Object")) (Str (js "USD"))).
    + intros i j. apply toLowerCase_slice.
    + vm_compute. reflexivity.
Defined.

Lemma aliasesOf_In codes key c :
  In (key, c) codes -> In key (aliasesOf codes c).
Proof.
  intros H. unfold aliasesOf.
  apply (in_map fst _ (key, c)). apply filter_In. split; [exact H|].
  apply jseqb_refl.
Qed.

(** X9. In the first revision the yen sign maps to CNY only (its key is
    written twice in the alias literal): when lowercasing leaves the
    parts of the lowercased query as they are, an extraction that
    returns JPY had "jpy" or "yen" in the lowercased query. *)
Theorem first_revision_yen_needs_its_name :
  forall (lower : jsstring -> jsstring) (query : jsstring)
         (amount : number) (f t : value),
    (forall i j, lower (slice (lower query) i j) = slice (lower query) i j) ->
    extractCurrencyInfo lower Converter.currencyCodes query
    = Success amount f t ->
    f = Str (js "JPY") \/ t = Str (js "JPY") ->
    includes (lower query) (js "jpy") = true \/
    includes (lower query) (js "yen") = true.
Proof.
  intros lower query amount f t Hl H Hj.
  apply (success_backed lower Converter.currencyCodes) in H
    as [Hf Ht]; [|exact Hl].
  assert (K : exists key, includes (lower query) key = true /\
                In (key, js "JPY") Converter.currencyCodes)
    by (destruct Hj as [-> | ->]; assumption).
  destruct K as (key & Hi & Hin).
  apply aliasesOf_In in Hin.
  assert (E : aliasesOf Converter.currencyCodes (js "JPY")
              = [js "jpy"; js "yen"]) by (vm_compute; reflexivity).
  rewrite E in Hin.
  destruct Hin as [<-|[<-|[]]]; [left|right]; exact Hi.
Qed.

(** With the lowercasing of ASCII letters, which leaves the parts of a
    lowercased text as they are: "100 Yen to USD" returns JPY and has
    "yen" in it; "100 ¥ to usd" returns USD and CNY. *)
Lemma first_revision_yen_needs_its_name_witness :
  (includes (toLowerCase (js "100 Yen to USD")) (js "jpy") = true \/
   includes (toLowerCase (js "100 Yen to USD")) (js "yen") = true) /\
  extractCurrencyInfo toLowerCase Converter.currencyCodes
                      (js "100 ¥ to usd")
  = Success (ofInt 100) (Str (js "USD")) (Str (js "CNY")).
Proof.
  split.
  - apply (first_revision_yen_needs_its_name toLowerCase
             (js "100 Yen to USD")
             (ofInt 100) (Str (js "JPY")) (Str (js "USD"))).
    + intros i j. apply toLowerCase_slice.
    + vm_compute. reflexivity.
    + left. reflexivity.
  - vm_compute. reflexivity.
Defined.

(** ** The symbol tables of the two revisions *)

Lemma ownProp_absent o k :
  existsb (jseqb k) (map fst o) = false -> ownProp o k = None.
Proof.
  induction o as [|[k' v] o IH]; simpl; [reflexivity|].
  intros H. apply orb_false_iff in H as [H1 H2]. rewrite H1. exact (IH H2).
Qed.

Lemma symbolOf_revisions functionText code :
  existsb (jseqb (toText functionText code)) addedCodes = false ->
  symbolOf functionText ConverterForm.CURRENCY_SYMBOLS code
  = symbolOf functionText Converter.currencySymbols code.
Proof.
  intros H. unfold symbolOf, getProp.
  assert (E : ConverterForm.CURRENCY_SYMBOLS
              = Converter.currencySymbols
                  ++ skipn 9 ConverterForm.CURRENCY_SYMBOLS)
    by (vm_compute; reflexivity).
  rewrite E, ownProp_app.
  destruct (ownProp Converter.currencySymbols (toText functionText code));
    [reflexivity|].
  rewrite ownProp_absent; [reflexivity|].
  assert (A : map fst (skipn 9 ConverterForm.CURRENCY_SYMBOLS) = addedCodes)
    by (vm_compute; reflexivity).
  rewrite A. exact H.
Qed.

(** X10. The formatters of the two revisions print the same text for
    every pair of currencies that are not among the codes the later
    revision added to the symbol table (RUB, MXN, BRL). *)
Theorem formatters_agree_outside_added_codes :
  forall (functionText : jsstring -> jsstring) (amount : number)
         (f t : value) (result : number),
    existsb (jseqb (toText functionText f)) addedCodes = false ->
    existsb (jseqb (toText functionText t)) addedCodes = false ->
    ConverterForm.format functionText amount f t result
    = Converter.format functionText amount f t result.
Proof.
  intros functionText amount f t result Hf Ht.
  unfold ConverterForm.format, Converter.format, formatCurrencyResult.
  rewrite (symbolOf_revisions functionText f Hf),
    (symbolOf_revisions functionText t Ht).
  reflexivity.
Qed.

(** The two formatters agree on 1234.5 USD to EUR; on RUB the later one
    prints the ruble sign and the first one no symbol. *)
Lemma formatters_agree_outside_added_codes_witness :
  ConverterForm.format (fun s => s) (ofDecimal false 12345 (-1))
    (Str (js "USD")) (Str (js "EUR")) (ofDecimal false 114021 (-2))
  = Converter.format (fun s => s) (ofDecimal false 12345 (-1))
      (Str (js "USD")) (Str (js "EUR")) (ofDecimal false 114021 (-2))
  /\ addedCodes = [js "RUB"; js "MXN"; js "BRL"]
  /\ ConverterForm.format (fun s => s) (ofInt 5) (Str (js "RUB"))
       (Str (js "USD")) (ofInt 1)
     <> Converter.format (fun s => s) (ofInt 5) (Str (js "RUB"))
          (Str (js "USD")) (ofInt 1).
Proof.
  split; [|split].
  - apply (formatters_agree_outside_added_codes (fun s => s));
      vm_compute; reflexivity.
  - vm_compute. reflexivity.
  - vm_compute. discriminate.
Defined.

(** ** Reading back a grouped amount *)

Lemma removeCommas_groupRev l :
  forallb isDigit l = true -> forall i, removeCommas (groupRev i l) = l.
Proof.
  unfold removeCommas.
  induction l as [|d l IH]; intros H i; [reflexivity|].
  simpl in H. apply andb_true_iff in H as [Hd Hl].
  pose proof (digit_not_comma d Hd) as Hc.
  simpl. destruct (Nat.eqb i 3); simpl; rewrite Hc, (IH Hl); reflexivity.
Qed.

Lemma removeCommas_grouped n : removeCommas (grouped n) = digitsOf n.
Proof.
  unfold grouped. unfold removeCommas at 1. rewrite filter_rev.
  change (filter (fun c => negb (c =? 44)) (groupRev 0 (rev (digitsOf n))))
    with (removeCommas (groupRev 0 (rev (digitsOf n)))).
  rewrite removeCommas_groupRev; [apply rev_involutive|].
  rewrite forallb_rev. apply uintUnits_digits.
Qed.

Lemma takeDigits_all l : forallb isDigit l = true -> takeDigits l = (l, []).
Proof.
  induction l as [|d l IH]; simpl; [reflexivity|].
  intros H. apply andb_true_iff in H as [Hd Hl].
  rewrite Hd, (IH Hl). reflexivity.
Qed.

Lemma digitsValue_acc d :
  forall acc,
    fold_left (fun a c => 10 * a + (c - 48)) (uintUnits d) (Npos acc)
    = Npos (Pos.of_uint_acc d acc).
Proof.
  induction d; intros acc; cbn [uintUnits Pos.of_uint_acc fold_left];
    [reflexivity|..];
    rewrite <- IHd; f_equal; lia.
Qed.

Lemma digitsValue_uint d : digitsValue (uintUnits d) = Pos.of_uint d.
Proof.
  unfold digitsValue.
  induction d; cbn [uintUnits Pos.of_uint fold_left]; [reflexivity|..];
    [exact IHd|..];
    match goal with
    | |- _ = N.pos (Pos.of_uint_acc _ ?a) => exact (digitsValue_acc d a)
    end.
Qed.

Lemma digitsValue_digitsOf n : digitsValue (digitsOf n) = n.
Proof.
  unfold digitsOf. rewrite digitsValue_uint.
  destruct n as [|p]; [reflexivity|].
  apply DecimalPos.Unsigned.of_to.
Qed.

(** X11. The comma removal and [parseFloat] of the extractor read a whole
    number written with thousands separators, as the formatter prints it,
    back as that number. *)
Theorem grouped_amount_reads_back :
  forall n : N, parseFloat (removeCommas (grouped n)) = ofDecimal false n 0.
Proof.
  intros n. rewrite removeCommas_grouped. unfold parseFloat.
  assert (T : takeDigits (digitsOf n) = (digitsOf n, []))
    by apply takeDigits_all, uintUnits_digits.
  rewrite T, app_nil_r, digitsValue_digitsOf.
  destruct (digitsOf n) eqn:E; [|reflexivity].
  exfalso. exact (digitsOf_nonempty n E).
Qed.

(** ** The table scan, slot by slot *)

Lemma scanLoop_first_present q before key code rest :
  forall st : slot * slot,
    forallb (fun kv => negb (present q kv)) before = true ->
    includes q key = true ->
    unset (fst st) = true ->
    scanLoop q (before ++ (key, code) :: rest) st
    = scanLoop q rest (Some (Str code), snd st).
Proof.
  induction before as [|[k c] before IH]; intros st Hb Hk Hf.
  - cbn [app]. rewrite scanLoop_cons, Hk, Hf. reflexivity.
  - cbn [app]. rewrite scanLoop_cons.
    cbn [forallb] in Hb. apply andb_true_iff in Hb as [Hn Hb].
    change (present q (k, c)) with (includes q k) in Hn.
    apply negb_true_iff in Hn. rewrite Hn. apply IH; assumption.
Qed.

Lemma scanLoop_target q entries :
  forall st : slot * slot,
    snd (scanLoop q entries st) = snd st
    \/ (unset (snd st) = true /\
        exists key code,
          In (key, code) entries /\ includes q key = true /\
          snd (scanLoop q entries st) = Some (Str code) /\
          unset (fst (scanLoop q entries st)) = false /\
          fst (scanLoop q entries st) <> Some (Str code)).
Proof.
  induction entries as [|[key code] rest IH]; intros st.
  - left. reflexivity.
  - assert (Hrest : forall st0,
                scanLoop q rest st0 = scanLoop q ((key, code) :: rest) st ->
                snd st0 = snd st -> unset (snd st0) = unset (snd st) ->
                snd (scanLoop q ((key, code) :: rest) st) = snd st
                \/ (unset (snd st) = true /\
                    exists k c,
                      In (k, c) ((key, code) :: rest) /\
                      includes q k = true /\
                      snd (scanLoop q ((key, code) :: rest) st)
                      = Some (Str c) /\
                      unset (fst (scanLoop q ((key, code) :: rest) st))
                      = false /\
                      fst (scanLoop q ((key, code) :: rest) st)
                      <> Some (Str c))).
    { intros st0 E Hs Hu. rewrite <- E.
      destruct (IH st0) as [E0|(U & k & c & Hi & H)].
      - left. congruence.
      - right. split; [congruence|]. exists k, c.
        split; [right; exact Hi|exact H]. }
    rewrite scanLoop_cons in *.
    destruct (includes q key) eqn:Hin;
      [|apply (Hrest st); solve [reflexivity|assumption]].
    destruct (unset (fst st)) eqn:Uf;
      [apply (Hrest (Some (Str code), snd st));
       solve [reflexivity|assumption]|].
    destruct (fst st) as [f|] eqn:Ef; [|discriminate].
    destruct (unset (snd st)) eqn:Ut;
      [|apply (Hrest st); solve [reflexivity|assumption]].
    destruct (strictEq (Str code) f) eqn:Eq; cbn [negb andb] in *.
    + apply (Hrest st); solve [reflexivity|assumption].
    + right. split; [reflexivity|]. exists key, code.
      split; [left; reflexivity|]. split; [exact Hin|].
      cbn [fst snd]. split; [reflexivity|]. split; [exact Uf|].
      intros Heq. injection Heq as ->. simpl in Eq.
      rewrite jseqb_refl in Eq. discriminate.
Qed.

Lemma scanLoop_one_code q entries c :
  forall st : slot * slot,
    presentMapTo q entries c = true ->
    fst st = None \/ fst st = Some (Str c) ->
    snd (scanLoop q entries st) = snd st.
Proof.
  induction entries as [|[key code] rest IH]; intros st Hall Hf.
  - reflexivity.
  - rewrite scanLoop_cons.
    simpl in Hall. apply andb_true_iff in Hall as [Hk Hrest].
    destruct (includes q key) eqn:Hin; [|apply IH; assumption].
    simpl in Hk. apply jseqb_eq in Hk. subst code.
    destruct (unset (fst st)) eqn:Uf.
    + rewrite (IH (Some (Str c), snd st)); auto.
    + destruct Hf as [Hf|Hf]; rewrite Hf in *; [discriminate|].
      cbn [strictEq]. rewrite jseqb_refl. cbn [negb].
      rewrite andb_false_r. apply IH; auto.
Qed.

(** C4. At the first alias present in the query the scan gives an unset
    source slot that alias's code and goes on with the rest of the
    table; a source slot that is set is never changed.  The target slot
    is left as found, or was unset and takes the code of an alias
    present in the query, a code that differs from the source slot.  So
    when every alias present maps to one code, and the source slot is
    unset or holds that code, the target slot is left as it was: "100
    dollar usd" fails for that reason.  But the pattern loop can leave a
    member of [Object.prototype] in the source slot: on "100 constructor
    to xyz usd" it holds the function [Object], the only alias present
    is "usd", and the scan sets the target to USD. *)
Theorem C4_scan_target_differs :
  forall (q : jsstring) (entries : table) (st : slot * slot),
    (forall before key code rest,
        entries = before ++ (key, code) :: rest ->
        forallb (fun kv => negb (present q kv)) before = true ->
        includes q key = true ->
        unset (fst st) = true ->
        scanLoop q entries st = scanLoop q rest (Some (Str code), snd st))
    /\ (unset (fst st) = false -> fst (scanLoop q entries st) = fst st)
    /\ (snd (scanLoop q entries st) = snd st
        \/ (unset (snd st) = true /\
            exists key code,
              In (key, code) entries /\ includes q key = true /\
              snd (scanLoop q entries st) = Some (Str code) /\
              unset (fst (scanLoop q entries st)) = false /\
              fst (scanLoop q entries st) <> Some (Str code)))
    /\ (forall c,
          presentMapTo q entries c = true ->
          fst st = None \/ fst st = Some (Str c) ->
          snd (scanLoop q entries st) = snd st)
    /\ (Converter.extract (js "100 dollar usd")
        = Failure (js "Please specify both the source and target currencies more clearly.")
        /\ ConverterForm.extract (js "100 dollar usd")
           = Failure (js "Please specify both the source and target currencies more clearly."))
    /\ (patternLoop toLowerCase Converter.currencyCodes
                    (js "100 constructor to xyz usd") conversionPatterns
                    (None, None)
        = Ok (Some (Builtin (js "Object")), None)
        /\ presentMapTo (js "100 constructor to xyz usd")
                        Converter.currencyCodes (js "USD") = true
        /\ scanLoop (js "100 constructor to xyz usd") Converter.currencyCodes
                    (Some (Builtin (js "Object")), None)
           = (Some (Builtin (js "Object")), Some (Str (js "USD")))
        /\ Converter.extract (js "100 constructor to xyz usd")
           = Success (ofInt 100) (Builtin (js "Object")) (Str (js "USD"))
        /\ ConverterForm.extract (js "100 constructor to xyz usd")
           = Success (ofInt 100) (Builtin (js "Object")) (Str (js "USD"))).
Proof.
  intros q entries st.
  split; [|split; [|split; [|split; [|split]]]].
  - intros before key code rest -> Hb Hk Hf.
    apply scanLoop_first_present; assumption.
  - apply scanLoop_keeps_source.
  - apply scanLoop_target.
  - intros c. apply scanLoop_one_code.
  - split; vm_compute; reflexivity.
  - repeat split; vm_compute; reflexivity.
Qed.

(** "100 dollar usd": "usd" is the first alias of the table present, so
    the source becomes USD; every alias present maps to USD, and the
    target stays unset. *)
Lemma C4_witness :
  scanLoop (js "100 dollar usd") Converter.currencyCodes (None, None)
  = scanLoop (js "100 dollar usd") (skipn 1 Converter.currencyCodes)
             (Some (Str (js "USD")), None)
  /\ presentMapTo (js "100 dollar usd") Converter.currencyCodes (js "USD")
     = true
  /\ snd (scanLoop (js "100 dollar usd") Converter.currencyCodes (None, None))
     = None.
Proof.
  destruct (C4_scan_target_differs (js "100 dollar usd")
              Converter.currencyCodes (None, None)) as (S1 & _ & _ & H & _).
  split; [|split].
  - apply (S1 [] (js "usd") (js "USD") (skipn 1 Converter.currencyCodes));
      vm_compute; reflexivity.
  - vm_compute. reflexivity.
  - apply (H (js "USD")).
    + vm_compute. reflexivity.
    + left. reflexivity.
Defined.
